(** * Simon game: the round controller of [game.js] and the static file server

    A shallow embedding of the game logic of [src/game.js] (module-level state,
    [handlePlayerPress], [nextRound], [startGame], [gameOver], [playSequence],
    [saveHighScore] and the event bindings) and of the request handler of the
    static file server.

    Conventions.
    - Numbers are JavaScript integers far below 2^53; they are modelled as [Z]
      (times in milliseconds, level, high score) or [nat] (array indices).
    - [Date.now()] and the timer clock are one clock: every event carries the
      time [now] at which its handler runs.
    - [Math.random()] is an oracle: the event that runs [nextRound] carries the
      pad [PADS[Math.floor(Math.random() * PADS.length)]].
    - JavaScript arrays are objects with identity.  [sequence = []] binds the
      variable to a fresh array, [sequence.push] mutates the array in place and
      [playSequence(sequence)] keeps a reference to it.  The store [arrays]
      maps array identities to contents.
    - Audio, CSS classes and the text of the live region are not modelled; the
      game-over overlay (the final score shown to the player) and the
      [localStorage] entry are. *)

From Stdlib Require Import ZArith Lia Bool Ascii String.
From stdpp Require Import gmap list strings.

Local Open Scope Z_scope.

(** ** Pads *)

Inductive Pad := green | red | yellow | blue.

#[global] Instance Pad_eq_dec : EqDecision Pad.
Proof. solve_decision. Defined.

Definition PADS : list Pad := [green; red; yellow; blue].

(** [keyMap = { a: "green", s: "red", d: "yellow", f: "blue" }] *)
Definition keyMap : gmap string Pad :=
  {[ "a" := green; "s" := red; "d" := yellow; "f" := blue ]}.

(** [keyMap] is a plain object, so [keyMap[k]] also finds the properties that
    every object inherits from [Object.prototype].  Their values are functions
    (and, for [__proto__], the prototype object): truthy, and no pad. *)
Definition inheritedKeys : list string :=
  [ "constructor"; "__defineGetter__"; "__defineSetter__"; "hasOwnProperty";
    "__lookupGetter__"; "__lookupSetter__"; "isPrototypeOf";
    "propertyIsEnumerable"; "toString"; "valueOf"; "__proto__";
    "toLocaleString" ].

Definition inheritedKey (k : string) : bool :=
  existsb (String.eqb k) inheritedKeys.

(** ** Timers

    A pending [setTimeout] callback.  [TNextRound] is [() => nextRound()];
    [TPresent seq i baseDelay] is the continuation of the loop of
    [playSequence] suspended in the [await] of iteration [i]. *)

Inductive Task :=
| TNextRound
| TPresent (seq : nat) (i : nat) (baseDelay : Z).

(** ** Module-level state *)

Record State := mkState {
  arrays : gmap nat (list Pad);   (* the array objects allocated so far *)
  nextRef : nat;                  (* identity of the next array literal *)
  seqRef : nat;                   (* the array bound to [sequence] *)
  playerIndex : nat;
  level : Z;
  isPlayingSequence : bool;
  highScore : Z;
  storage : option Z;             (* localStorage["simon_highscore"] *)
  lastTap : Z;
  overlay : option Z;             (* game-over overlay: the score it shows *)
  timers : list (Z * Task)        (* pending timers with their due times *)
}.

(** The contents of the array bound to [sequence]. *)
Definition sequence (s : State) : list Pad :=
  default [] (arrays s !! seqRef s).

Definition set_playerIndex (v : nat) (s : State) : State :=
  mkState (arrays s) (nextRef s) (seqRef s) v (level s) (isPlayingSequence s)
          (highScore s) (storage s) (lastTap s) (overlay s) (timers s).

Definition set_level (v : Z) (s : State) : State :=
  mkState (arrays s) (nextRef s) (seqRef s) (playerIndex s) v
          (isPlayingSequence s) (highScore s) (storage s) (lastTap s)
          (overlay s) (timers s).

Definition set_isPlayingSequence (v : bool) (s : State) : State :=
  mkState (arrays s) (nextRef s) (seqRef s) (playerIndex s) (level s) v
          (highScore s) (storage s) (lastTap s) (overlay s) (timers s).

Definition set_lastTap (v : Z) (s : State) : State :=
  mkState (arrays s) (nextRef s) (seqRef s) (playerIndex s) (level s)
          (isPlayingSequence s) (highScore s) (storage s) v (overlay s)
          (timers s).

Definition set_overlay (v : option Z) (s : State) : State :=
  mkState (arrays s) (nextRef s) (seqRef s) (playerIndex s) (level s)
          (isPlayingSequence s) (highScore s) (storage s) (lastTap s) v
          (timers s).

Definition set_timers (v : list (Z * Task)) (s : State) : State :=
  mkState (arrays s) (nextRef s) (seqRef s) (playerIndex s) (level s)
          (isPlayingSequence s) (highScore s) (storage s) (lastTap s)
          (overlay s) v.

(** [sequence = []]: a fresh, empty array is bound to the variable; arrays
    still referenced by pending callbacks stay as they are. *)
Definition sequence_reset (s : State) : State :=
  mkState (<[nextRef s := []]> (arrays s)) (S (nextRef s)) (nextRef s)
          (playerIndex s) (level s) (isPlayingSequence s) (highScore s)
          (storage s) (lastTap s) (overlay s) (timers s).

(** [sequence.push(next)]: the array is extended in place. *)
Definition sequence_push (next : Pad) (s : State) : State :=
  mkState (<[seqRef s := sequence s ++ [next]]> (arrays s)) (nextRef s)
          (seqRef s) (playerIndex s) (level s) (isPlayingSequence s)
          (highScore s) (storage s) (lastTap s) (overlay s) (timers s).

(** [setTimeout(f, delay)] called at time [now]. *)
Definition setTimeout (now delay : Z) (f : Task) (s : State) : State :=
  set_timers (timers s ++ [(now + delay, f)]) s.

(** [Number.isSafeInteger]: the integers that [Number] reads and [String]
    writes exactly. *)
Definition safeInteger (v : Z) : Prop := - 2 ^ 53 < v < 2 ^ 53.

(** The stored text is absent or the decimal rendering of a safe integer, as
    [saveHighScore] writes it. *)
Definition safeStored (stored : option Z) : Prop :=
  forall v : Z, stored = Some v -> safeInteger v.

(** The state after the script has loaded:
    [highScore = Number(localStorage.getItem("simon_highscore") || 0)].
    [stored] is the integer that the stored text denotes.  [Number] reads it
    exactly when it is a safe integer; above 2^53 it rounds, so what is said
    about the value read against the value stored assumes [safeStored]. *)
Definition init (stored : option Z) : State :=
  mkState {[ 0%nat := [] ]} 1 0 0 0 false (default 0 stored) stored 0 None [].

(** ** Game helpers *)

(** [saveHighScore(v)] *)
Definition saveHighScore (v : Z) (s : State) : State :=
  let h := Z.max (highScore s) v in
  mkState (arrays s) (nextRef s) (seqRef s) (playerIndex s) (level s)
          (isPlayingSequence s) h (Some h) (lastTap s) (overlay s) (timers s).

(** [baseDelay] of [playSequence] for a sequence of length [len]. *)
Definition baseDelay (len : nat) : Z := Z.max (500 - Z.of_nat len * 8) 160.

(** The time awaited after step [i]:  [Math.max(baseDelay - i * 8, 140)]. *)
Definition awaitDelay (base : Z) (i : nat) : Z :=
  Z.max (base - Z.of_nat i * 8) 140.

(** The delay between step [i] and the next one when a sequence of length
    [len] is presented. *)
Definition stepDelay (len i : nat) : Z := awaitDelay (baseDelay len) i.

(** The loop of [playSequence] at its head with loop variable [i]: either the
    pad [seq[i]] is flashed and the loop suspends in a timer, or the loop is
    left and [isPlayingSequence] is cleared.  [seq.length] is read from the
    array object at that moment. *)
Definition presentLoop (now : Z) (seq i : nat) (base : Z) (s : State) : State :=
  if bool_decide (i < length (default [] (arrays s !! seq)))%nat
  then setTimeout now (awaitDelay base i) (TPresent seq i base) s
  else set_isPlayingSequence false s.

(** [playSequence(seq)] up to its first suspension. *)
Definition playSequence (now : Z) (seq : nat) (s : State) : State :=
  let s1 := set_isPlayingSequence true s in
  presentLoop now seq 0 (baseDelay (length (default [] (arrays s1 !! seq)))) s1.

(** [nextRound()], where [next] is the pad drawn from [PADS]. *)
Definition nextRound (now : Z) (next : Pad) (s : State) : State :=
  let s1 := sequence_push next s in
  let s2 := set_level (Z.of_nat (length (sequence s1))) s1 in
  let s3 := saveHighScore (level s2 - 1) s2 in
  playSequence now (seqRef s3) s3.

(** [startGame()] *)
Definition startGame (now : Z) (s : State) : State :=
  let s1 := sequence_reset s in
  let s2 := set_playerIndex 0 s1 in
  let s3 := set_level 0 s2 in
  setTimeout now 350 TNextRound s3.

(** [gameOver()] *)
Definition gameOver (s : State) : State :=
  let s1 := saveHighScore (level s) s in
  let s2 := set_overlay (Some (level s1)) s1 in
  let s3 := sequence_reset s2 in
  let s4 := set_playerIndex 0 s3 in
  let s5 := set_level 0 s4 in
  set_isPlayingSequence false s5.

(** [handlePlayerPress(color)], with [now = Date.now()].  [sequence[playerIndex]]
    is [undefined] out of range, which no pad equals. *)
Definition handlePlayerPress (now : Z) (color : Pad) (s : State) : State :=
  if now - lastTap s <? 100 then s
  else
    let s1 := set_lastTap now s in
    if isPlayingSequence s1 then s1
    else if (length (sequence s1) =? 0)%nat then s1
    else if bool_decide (sequence s1 !! playerIndex s1 = Some color) then
      let s2 := set_playerIndex (S (playerIndex s1)) s1 in
      if (playerIndex s2 =? length (sequence s2))%nat
      then setTimeout now 450 TNextRound (set_playerIndex 0 s2)
      else s2
    else gameOver s1.

(** [handlePlayerPress(color)] when [color] is no pad, as the value of an
    inherited property of [keyMap] is: [flashPad] finds no element for it and
    [color === expected] is false whatever [expected] is. *)
Definition handlePlayerPress_noPad (now : Z) (s : State) : State :=
  if now - lastTap s <? 100 then s
  else
    let s1 := set_lastTap now s in
    if isPlayingSequence s1 then s1
    else if (length (sequence s1) =? 0)%nat then s1
    else gameOver s1.

(** ** Event bindings *)

(** [String.prototype.toLowerCase] on ASCII text. *)
Definition lowerAscii (c : ascii) : ascii :=
  let n := nat_of_ascii c in
  if ((65 <=? n) && (n <=? 90))%nat then ascii_of_nat (n + 32) else c.

Fixpoint toLowerCase (s : string) : string :=
  match s with
  | EmptyString => EmptyString
  | String c r => String (lowerAscii c) (toLowerCase r)
  end.

(** [e.key === " " || e.key === "Enter"] *)
Definition isActivationKey (key : string) : bool :=
  String.eqb key " " || String.eqb key "Enter".

(** The [keydown] listener of a pad. *)
Definition onPadKeydown (now : Z) (pad : Pad) (key : string) (s : State) : State :=
  if isActivationKey key then handlePlayerPress now pad s else s.

(** [if (keyMap[k]) handlePlayerPress(keyMap[k])]: an own property of
    [keyMap] is a pad, an inherited one is a truthy value that is no pad, and
    any other lookup is [undefined]. *)
Definition pressKey (now : Z) (k : string) (s : State) : State :=
  match keyMap !! k with
  | Some c => handlePlayerPress now c s
  | None => if inheritedKey k then handlePlayerPress_noPad now s else s
  end.

(** The [keydown] listener of [window]. *)
Definition onWindowKeydown (now : Z) (key : string) (s : State) : State :=
  let k := toLowerCase key in
  let s1 := pressKey now k s in
  if isActivationKey key && (level s1 =? 0) then startGame now s1 else s1.

(** [hideGameOverOverlay()] *)
Definition hideGameOverOverlay (s : State) : State := set_overlay None s.

(** The [click] listener of the retry button. *)
Definition onRetryClick (now : Z) (s : State) : State :=
  startGame now (hideGameOverOverlay s).

(** A timer callback. *)
Definition runTask (now : Z) (next : Pad) (f : Task) (s : State) : State :=
  match f with
  | TNextRound => nextRound now next s
  | TPresent seq i base => presentLoop now seq (S i) base s
  end.

(** What the event loop delivers.  A key pressed on a focused pad reaches the
    pad's listener and then, bubbling, the listener of [window].
    [TimerFires k next] runs the [k]-th pending timer, once it is due; [next]
    is the pad that [nextRound] draws if that timer runs it. *)
Inductive Event :=
| PadPointerDown (pad : Pad)
| PadKeyDown (pad : Pad) (key : string)
| WindowKeyDown (key : string)
| StartClick
| RetryClick
| CloseGameOverClick
| TimerFires (k : nat) (next : Pad).

Definition step (now : Z) (e : Event) (s : State) : State :=
  match e with
  | PadPointerDown pad => handlePlayerPress now pad s
  | PadKeyDown pad key => onWindowKeydown now key (onPadKeydown now pad key s)
  | WindowKeyDown key => onWindowKeydown now key s
  | StartClick => startGame now s
  | RetryClick => onRetryClick now s
  | CloseGameOverClick => hideGameOverOverlay s
  | TimerFires k next =>
      match timers s !! k with
      | Some (due, f) =>
          if due <=? now then runTask now next f (set_timers (delete k (timers s)) s)
          else s
      | None => s
      end
  end.

(** A play session: events with the times at which they are handled. *)
Fixpoint run (tr : list (Z * Event)) (s : State) : State :=
  match tr with
  | [] => s
  | (now, e) :: tr' => run tr' (step now e s)
  end.

(** The times of a session never go back. *)
Fixpoint chronological (t0 : Z) (tr : list (Z * Event)) : bool :=
  match tr with
  | [] => true
  | (now, _) :: tr' => (t0 <=? now) && chronological now tr'
  end.

(** Sessions in which only timers run. *)
Definition isTimerEvent (e : Event) : bool :=
  match e with
  | TimerFires _ _ => true
  | _ => false
  end.

Definition timersOnly (tr : list (Z * Event)) : bool :=
  forallb (fun te => isTimerEvent (snd te)) tr.

Definition reachable (s : State) : Prop :=
  exists stored tr, s = run tr (init stored).

(** ** States of the round controller, as the code represents them *)

(** The controller waits for the player: no presentation is flagged and there
    is a sequence to repeat. *)
Definition AwaitingInput (s : State) : Prop :=
  isPlayingSequence s = false /\ sequence s <> [].

(** A presentation is flagged as running. *)
Definition Presenting (s : State) : Prop := isPlayingSequence s = true.

(** The game is over at [finalLevel]: the overlay reports the final level and
    the round state is the idle one. *)
Definition GameOver (finalLevel : Z) (s : State) : Prop :=
  overlay s = Some finalLevel /\ sequence s = [] /\ playerIndex s = 0%nat /\
  level s = 0 /\ isPlayingSequence s = false.

(** What holds of the state whenever no handler is running: the stored high
    score is the one in memory, and [level] is the length of the sequence. *)
Definition Consistent (s : State) : Prop :=
  default 0 (storage s) = highScore s /\
  level s = Z.of_nat (length (sequence s)).

(** From [s] to [s'] the high score has not gone down and consistency is
    kept. *)
Definition Grows (s s' : State) : Prop :=
  highScore s <= highScore s' /\ (Consistent s -> Consistent s').



(** The debounce test of [handlePlayerPress]. *)
Definition withinDebounce (s : State) (now : Z) : Prop := now - lastTap s < 100.


(** ** A faultless player

    Sessions in which timers run when they are due and the player repeats the
    whole sequence, one press every [gap] milliseconds.  A session is threaded
    as a pair of the current time and the state. *)

(** The oldest pending timer runs, at its due time or now if that is later. *)
Definition fireHead (next : Pad) (cs : Z * State) : Z * State :=
  match timers (snd cs) with
  | [] => cs
  | (due, _) :: _ =>
      let now := Z.max (fst cs) due in
      (now, step now (TimerFires 0 next) (snd cs))
  end.

(** The presentation runs for [n] steps. *)
Fixpoint watch (n : nat) (cs : Z * State) : Z * State :=
  match n with
  | O => cs
  | S n' => watch n' (fireHead green cs)
  end.

(** The player presses the pads [colors] in order. *)
Fixpoint replay (gap : Z) (colors : list Pad) (cs : Z * State) : Z * State :=
  match colors with
  | [] => cs
  | c :: rest =>
      let now := fst cs + gap in
      replay gap rest (now, step now (PadPointerDown c) (snd cs))
  end.

(** One round: the round-advance timer runs [nextRound], which draws [next];
    the sequence is presented; the player repeats it. *)
Definition playRound (gap : Z) (cs : Z * State) (next : Pad) : Z * State :=
  let cs1 := fireHead next cs in
  let cs2 := watch (length (sequence (snd cs1))) cs1 in
  replay gap (sequence (snd cs2)) cs2.

(** As many rounds as there are draws. *)
Definition playRounds (gap : Z) (draws : list Pad) (cs : Z * State) : Z * State :=
  foldl (playRound gap) cs draws.

(** The round that presented [seq] is complete at the time [fst cs]: the
    sequence has been repeated in full and the round advance is pending. *)
Definition RoundComplete (seq : list Pad) (cs : Z * State) : Prop :=
  sequence (snd cs) = seq /\
  level (snd cs) = Z.of_nat (length seq) /\
  playerIndex (snd cs) = 0%nat /\
  (exists due, timers (snd cs) = [(due, TNextRound)]) /\
  lastTap (snd cs) <= fst cs.

(** An event keeps the sequence or clears it. *)
Definition KeepOrClear (s s' : State) : Prop :=
  sequence s' = sequence s \/ sequence s' = [].

(** ** Sessions used as examples *)

(** A game is started at time 1000 and the first round, [green], is presented. *)
Definition session_first_round : list (Z * Event) :=
  [ (1000, StartClick); (1350, TimerFires 0 green); (1842, TimerFires 0 green) ].

(** Then the player presses green at 2000: the round is complete and the
    round-advance timer is pending until 2450. *)
Definition session_round_complete : list (Z * Event) :=
  session_first_round ++ [ (2000, PadPointerDown green) ].

(** Within that delay the player presses a wrong pad (game over at 2200) and
    clicks retry at 2250. *)
Definition session_retry : list (Z * Event) :=
  session_round_complete ++ [ (2200, PadPointerDown red); (2250, RetryClick) ].





(** ** The static file server *)

Module Server.

(** The error object handed to the callback of [fs.readFile]: its [code] and
    its rendering in a template string. *)
Record FsError := mkFsError { code : string; rendering : string }.

Inductive ReadResult :=
| ReadOk (data : string)
| ReadErr (err : FsError).

(** What the handler writes: [res.writeHead(status, headers)] and
    [res.end(body)]. *)
Record Response := mkResponse {
  status : Z;
  contentType : option string;
  body : string
}.

(** The [mimeTypes] table. *)
Definition mimeTypes : gmap string string :=
  {[ ".html" := "text/html"; ".js" := "text/javascript"; ".css" := "text/css" ]}.

Section Handler.

(** The Node runtime: [__dirname], [path.join], [path.extname] and the file
    system as [fs.readFile] sees it. *)
Variable dirname : string.
Variable join : string -> string -> string.
Variable extname : string -> string.
Variable readFile : string -> ReadResult.

(** The path that is read for a request of [url]. *)
Definition resolve (url : string) : string :=
  let filePath := if String.eqb url "/" then "/game.html" else url in
  join dirname filePath.

(** The request handler given to [http.createServer]. *)
Definition handler (url : string) : Response :=
  let filePath := resolve url in
  let ext := toLowerCase (extname filePath) in
  let contentType := default "text/plain" (mimeTypes !! ext) in
  match readFile filePath with
  | ReadErr err =>
      if String.eqb (code err) "ENOENT"
      then mkResponse 404 (Some "text/html") "<h1>404 - File Not Found</h1>"
      else mkResponse 500 None ("Server Error: " ++ rendering err)
  | ReadOk data => mkResponse 200 (Some contentType) data
  end.

End Handler.

(** *** A runtime to evaluate the handler on

    [path.extname] of Node (POSIX): the path is scanned from its end for the
    last dot of its last component. *)

Record ExtScan := mkExtScan {
  startDot : Z;
  startPart : Z;
  endPos : Z;
  matchedSlash : bool;
  preDotState : Z
}.

Fixpoint extnameScan (rpath : list ascii) (i : Z) (st : ExtScan) : ExtScan :=
  match rpath with
  | [] => st
  | c :: rest =>
      if Ascii.eqb c "/" then
        if negb (matchedSlash st)
        then mkExtScan (startDot st) (i + 1) (endPos st) (matchedSlash st)
                       (preDotState st)
        else extnameScan rest (i - 1) st
      else
        let st1 :=
          if endPos st =? -1
          then mkExtScan (startDot st) (startPart st) (i + 1) false (preDotState st)
          else st in
        let st2 :=
          if Ascii.eqb c "." then
            if startDot st1 =? -1
            then mkExtScan i (startPart st1) (endPos st1) (matchedSlash st1)
                           (preDotState st1)
            else if negb (preDotState st1 =? 1)
            then mkExtScan (startDot st1) (startPart st1) (endPos st1)
                           (matchedSlash st1) 1
            else st1
          else if negb (startDot st1 =? -1)
          then mkExtScan (startDot st1) (startPart st1) (endPos st1)
                         (matchedSlash st1) (-1)
          else st1 in
        extnameScan rest (i - 1) st2
  end.

Definition posix_extname (path : string) : string :=
  let st := extnameScan (rev (list_ascii_of_string path))
                        (Z.of_nat (String.length path) - 1)
                        (mkExtScan (-1) 0 (-1) true 0) in
  if (startDot st =? -1) || (endPos st =? -1) || (preDotState st =? 0)
     || ((preDotState st =? 1) && (startDot st =? endPos st - 1)
         && (startDot st =? startPart st + 1))
  then ""
  else substring (Z.to_nat (startDot st)) (Z.to_nat (endPos st - startDot st)) path.

(** [path.join] of an absolute directory without trailing slash and a
    normalised path that starts with a slash: the concatenation. *)
Definition join_normalised (dir file : string) : string := (dir ++ file)%string.

(** A directory that holds the entry document, a script and a document whose
    name is in capitals, and a file that cannot be read. *)
Definition files (path : string) : ReadResult :=
  if String.eqb path "/app/game.html" then ReadOk "<!doctype html>"
  else if String.eqb path "/app/game.js" then ReadOk "(() => {})();"
  else if String.eqb path "/app/README.HTML" then ReadOk "<p>Simon</p>"
  else if String.eqb path "/app/.html" then ReadOk "dotfile"
  else if String.eqb path "/app/secret.css"
  then ReadErr (mkFsError "EACCES" "Error: EACCES: permission denied")
  else ReadErr (mkFsError "ENOENT" "Error: ENOENT: no such file or directory").

Definition serve : string -> Response :=
  handler "/app" join_normalised posix_extname files.

(** The content type that the extension table assigns to a path by its
    ending, as the interface description words it. *)
Definition endsWith (suffix s : string) : bool :=
  let n := String.length s in
  let m := String.length suffix in
  (m <=? n)%nat && String.eqb (substring (n - m) m s) suffix.

Definition tableContentType (url : string) : string :=
  if endsWith ".html" url then "text/html"
  else if endsWith ".js" url then "text/javascript"
  else if endsWith ".css" url then "text/css"
  else "text/plain".

End Server.

(** ** Further notions used by the properties of the whole controller *)

(** [playerIndex] points into the sequence, or is 0. *)
Definition IndexInRange (s : State) : Prop :=
  playerIndex s = 0%nat \/ (playerIndex s < length (sequence s))%nat.

(** The score on the game-over overlay is a level that was played and that
    the high score covers. *)
Definition OverlayBounded (s : State) : Prop :=
  forall v : Z, overlay s = Some v -> 1 <= v <= highScore s.

Definition WellFormed (s : State) : Prop :=
  Consistent s /\ IndexInRange s /\ OverlayBounded s.

(** The high score is not negative and covers the rounds completed in the
    running game. *)
Definition Credited (s : State) : Prop :=
  0 <= highScore s /\ level s - 1 <= highScore s.


(** The keys that reach [handlePlayerPress] through the [window] listener. *)
Definition padKeys : list (string * Pad) :=
  [ ("a", green); ("A", green); ("s", red); ("S", red);
    ("d", yellow); ("D", yellow); ("f", blue); ("F", blue) ].



(** The time awaited in the [n] steps of a presentation from step [i] on. *)
Fixpoint totalDelay (base : Z) (i n : nat) : Z :=
  match n with
  | O => 0
  | S n' => awaitDelay base i + totalDelay base (S i) n'
  end.

(** The time the presentation of a sequence of length [len] takes. *)
Definition presentationTime (len : nat) : Z := totalDelay (baseDelay len) 0 len.
(** * Properties *)

(** ** Basic facts about the state updates *)

Lemma sequence_reset_empty (s : State) : sequence (sequence_reset s) = [].
Proof. unfold sequence, sequence_reset; cbn. by rewrite lookup_insert_eq. Qed.

Lemma sequence_push_app (next : Pad) (s : State) :
  sequence (sequence_push next s) = sequence s ++ [next].
Proof.
  unfold sequence at 1, sequence_push; cbn. by rewrite lookup_insert_eq.
Qed.

Lemma gameOver_sequence (s : State) : sequence (gameOver s) = [].
Proof. unfold gameOver, sequence; cbn. by rewrite lookup_insert_eq. Qed.

Lemma startGame_sequence (now : Z) (s : State) : sequence (startGame now s) = [].
Proof. unfold startGame, sequence; cbn. by rewrite lookup_insert_eq. Qed.

Lemma presentLoop_frame (now : Z) (seq i : nat) (base : Z) (s : State) :
  let s' := presentLoop now seq i base s in
  arrays s' = arrays s /\ seqRef s' = seqRef s /\ nextRef s' = nextRef s /\
  playerIndex s' = playerIndex s /\ level s' = level s /\
  highScore s' = highScore s /\ storage s' = storage s /\
  lastTap s' = lastTap s /\ overlay s' = overlay s.
Proof. unfold presentLoop; case_bool_decide; cbn; auto 10. Qed.

Lemma presentLoop_sequence (now : Z) (seq i : nat) (base : Z) (s : State) :
  sequence (presentLoop now seq i base s) = sequence s.
Proof.
  unfold sequence.
  destruct (presentLoop_frame now seq i base s) as (-> & -> & _). done.
Qed.

Lemma nextRound_sequence (now : Z) (next : Pad) (s : State) :
  sequence (nextRound now next s) = sequence s ++ [next].
Proof.
  unfold nextRound, playSequence. rewrite presentLoop_sequence.
  unfold sequence at 1; cbn. by rewrite lookup_insert_eq.
Qed.

Lemma nextRound_level (now : Z) (next : Pad) (s : State) :
  level (nextRound now next s) = Z.of_nat (length (sequence s)) + 1.
Proof.
  unfold nextRound, playSequence.
  match goal with |- level (presentLoop ?n ?r ?i ?b ?t) = _ =>
    destruct (presentLoop_frame n r i b t) as (_ & _ & _ & _ & -> & _) end.
  cbn. rewrite sequence_push_app, length_app. cbn. lia.
Qed.

Lemma nextRound_highScore (now : Z) (next : Pad) (s : State) :
  highScore (nextRound now next s)
  = Z.max (highScore s) (Z.of_nat (length (sequence s))) /\
  storage (nextRound now next s) = Some (highScore (nextRound now next s)).
Proof.
  unfold nextRound, playSequence.
  match goal with |- context [presentLoop ?n ?r ?i ?b ?t] =>
    destruct (presentLoop_frame n r i b t) as (_ & _ & _ & _ & _ & -> & -> & _) end.
  cbn. rewrite sequence_push_app, length_app. cbn.
  split; [f_equal; lia | done].
Qed.

(** The three outcomes of a press that passes the debounce test while the
    controller awaits input. *)
Lemma press_accepted (now : Z) (color : Pad) (s : State) :
  100 <= now - lastTap s -> isPlayingSequence s = false -> sequence s <> [] ->
  handlePlayerPress now color s =
    if bool_decide (sequence s !! playerIndex s = Some color) then
      if (S (playerIndex s) =? length (sequence s))%nat
      then setTimeout now 450 TNextRound (set_playerIndex 0 (set_lastTap now s))
      else set_playerIndex (S (playerIndex s)) (set_lastTap now s)
    else gameOver (set_lastTap now s).
Proof.
  intros Hd Hp Hs. unfold handlePlayerPress.
  destruct (Z.ltb_spec (now - lastTap s) 100) as [|_]; [lia|].
  cbn [isPlayingSequence set_lastTap]. rewrite Hp.
  change (sequence (set_lastTap now s)) with (sequence s).
  destruct (sequence s) as [|c l] eqn:E; [done|]. cbn [length Nat.eqb].
  change (playerIndex (set_lastTap now s)) with (playerIndex s).
  case_bool_decide; [|done].
  change (sequence (set_playerIndex _ _)) with (sequence s). rewrite E.
  cbn [playerIndex set_playerIndex length]. done.
Qed.

Lemma press_ignored (now : Z) (color : Pad) (s : State) :
  100 <= now - lastTap s -> isPlayingSequence s = true \/ sequence s = [] ->
  handlePlayerPress now color s = set_lastTap now s.
Proof.
  intros Hd Hi. unfold handlePlayerPress.
  destruct (Z.ltb_spec (now - lastTap s) 100) as [|_]; [lia|].
  cbn [isPlayingSequence set_lastTap].
  destruct (isPlayingSequence s); [done|].
  destruct Hi as [|Hs]; [done|].
  change (sequence (set_lastTap now s)) with (sequence s). by rewrite Hs.
Qed.

Lemma press_dropped (now : Z) (color : Pad) (s : State) :
  now - lastTap s < 100 -> handlePlayerPress now color s = s.
Proof.
  intros Hd. unfold handlePlayerPress.
  by destruct (Z.ltb_spec (now - lastTap s) 100) as [_|]; [|lia].
Qed.

Lemma press_lastTap (now : Z) (color : Pad) (s : State) :
  100 <= now - lastTap s -> lastTap (handlePlayerPress now color s) = now.
Proof.
  intros Hd.
  destruct (isPlayingSequence s) eqn:Hp;
    [by rewrite press_ignored; auto|].
  destruct (sequence s) as [|c l] eqn:Hs;
    [by rewrite press_ignored; auto|].
  rewrite press_accepted by (auto; congruence).
  repeat case_match; done.
Qed.

(** ** Pads and keys *)

(** [PADS] lists every pad once: a draw from it can be any pad. *)
Lemma PADS_complete (p : Pad) : p ∈ PADS /\ NoDup PADS.
Proof.
  split.
  - apply list_elem_of_In. destruct p; cbn; tauto.
  - apply NoDup_ListNoDup. unfold PADS.
    repeat (constructor; [cbn; intuition discriminate|]). constructor.
Qed.

(** A key bound to a pad is not a start key, so the [window] listener only
    forwards it to [handlePlayerPress]. *)
Lemma keyMap_not_activation (key : string) (c : Pad) :
  keyMap !! toLowerCase key = Some c -> isActivationKey key = false.
Proof.
  intros H. unfold isActivationKey.
  destruct (String.eqb_spec key " ") as [->|_];
    [by vm_compute in H|].
  destruct (String.eqb_spec key "Enter") as [->|_];
    [by vm_compute in H|done].
Qed.

Lemma window_key_is_press (now : Z) (key : string) (c : Pad) (s : State) :
  keyMap !! toLowerCase key = Some c ->
  step now (WindowKeyDown key) s = handlePlayerPress now c s.
Proof.
  intros H. cbn. unfold onWindowKeydown, pressKey.
  by rewrite H, (keyMap_not_activation _ _ H).
Qed.

(** A press of a value that is no pad is handled as a press of a pad that is
    not the expected one. *)
Lemma noPad_as_press (now : Z) (s : State) :
  exists c, sequence s !! playerIndex s <> Some c /\
            handlePlayerPress_noPad now s = handlePlayerPress now c s.
Proof.
  set (c := if bool_decide (sequence s !! playerIndex s = Some green)
            then red else green).
  assert (Hne : sequence s !! playerIndex s <> Some c).
  { subst c. case_bool_decide as H; [rewrite H|]; congruence. }
  exists c. split; [exact Hne|].
  unfold handlePlayerPress_noPad, handlePlayerPress.
  destruct (now - lastTap s <? 100); [done|]. cbv zeta.
  destruct (isPlayingSequence (set_lastTap now s)); [done|].
  destruct (length (sequence (set_lastTap now s)) =? 0)%nat; [done|].
  case_bool_decide as H; [|done]. destruct (Hne H).
Qed.

Lemma pressKey_cases (now : Z) (k : string) (s : State) :
  pressKey now k s = s \/ exists c, pressKey now k s = handlePlayerPress now c s.
Proof.
  unfold pressKey. destruct (keyMap !! k) as [c|]; [right; by exists c|].
  destruct (inheritedKey k); [|by left].
  right. destruct (noPad_as_press now s) as (c & _ & E). by exists c.
Qed.

Lemma gameOver_is_GameOver (s : State) : GameOver (level s) (gameOver s).
Proof.
  unfold GameOver. rewrite gameOver_sequence. by cbn.
Qed.

(** ** Mismatch *)

Lemma activation_not_keyMap (key : string) :
  isActivationKey key = true -> keyMap !! toLowerCase key = None.
Proof.
  intros H. destruct (keyMap !! toLowerCase key) as [c|] eqn:E; [|done].
  by rewrite (keyMap_not_activation _ _ E) in H.
Qed.

Lemma activation_not_inherited (key : string) :
  isActivationKey key = true -> inheritedKey (toLowerCase key) = false.
Proof.
  unfold isActivationKey.
  destruct (String.eqb_spec key " ") as [->|_]; [done|].
  destruct (String.eqb_spec key "Enter") as [->|_]; [done|]. done.
Qed.

(** A start key is no press. *)
Lemma pressKey_activation (now : Z) (key : string) (s : State) :
  isActivationKey key = true -> pressKey now (toLowerCase key) s = s.
Proof.
  intros H. unfold pressKey.
  by rewrite (activation_not_keyMap _ H), (activation_not_inherited _ H).
Qed.

(** C1. While the controller awaits input, a press that passes the debounce
    test and whose color is not [sequence[playerIndex]] ends the game,
    whatever [playerIndex] is: the overlay reports the level reached, the
    high score is saved, and the sequence is empty, [playerIndex] is 0 and
    [level] is 0 afterwards.  This holds for a press by pointer, by a pad key
    and by Enter or space on a focused pad. *)
Theorem mismatch_is_game_over (s : State) (now : Z) (color : Pad) :
  AwaitingInput s ->
  100 <= now - lastTap s ->
  sequence s !! playerIndex s <> Some color ->
  let s' := handlePlayerPress now color s in
  s' = gameOver (set_lastTap now s) /\
  GameOver (level s) s' /\
  sequence s' = [] /\ playerIndex s' = 0%nat /\ level s' = 0 /\
  highScore s' = Z.max (highScore s) (level s) /\
  step now (PadPointerDown color) s = s' /\
  (forall key, keyMap !! toLowerCase key = Some color ->
               step now (WindowKeyDown key) s = s') /\
  (forall key, isActivationKey key = true ->
     let s'' := step now (PadKeyDown color key) s in
     overlay s'' = Some (level s) /\ sequence s'' = [] /\
     playerIndex s'' = 0%nat /\ level s'' = 0).
Proof.
  intros [Hp Hs] Hd Hne s'.
  assert (E : s' = gameOver (set_lastTap now s)).
  { subst s'. rewrite press_accepted by done. by rewrite bool_decide_eq_false_2. }
  assert (Hw : forall key, keyMap !! toLowerCase key = Some color ->
                           step now (WindowKeyDown key) s = s')
    by (intros key Hkey; by apply window_key_is_press).
  assert (Hk : forall key, isActivationKey key = true ->
                           step now (PadKeyDown color key) s = startGame now s').
  { intros key Hkey. cbn [step]. unfold onPadKeydown, onWindowKeydown.
    rewrite Hkey, (pressKey_activation _ _ _ Hkey). fold s'. by rewrite E. }
  split; [done|].
  split; [rewrite E; apply (gameOver_is_GameOver (set_lastTap now s))|].
  split; [rewrite E; apply gameOver_sequence|].
  split; [by rewrite E|]. split; [by rewrite E|]. split; [by rewrite E|].
  split; [done|]. split; [done|].
  intros key Hkey. cbv zeta. rewrite (Hk key Hkey), startGame_sequence, E.
  done.
Qed.

Lemma mismatch_is_game_over_witness :
  let s := run session_first_round (init None) in
  let s' := handlePlayerPress 2000 red s in
  sequence s = [green] /\ GameOver 1 s' /\ sequence s' = [] /\ level s' = 0.
Proof.
  intros s s'.
  assert (Ha : AwaitingInput s) by (split; [reflexivity | by vm_compute]).
  assert (Hd : 100 <= 2000 - lastTap s) by (vm_compute; discriminate).
  assert (Hn : sequence s !! playerIndex s <> Some red) by (by vm_compute).
  destruct (mismatch_is_game_over s 2000 red Ha Hd Hn)
    as (_ & Hg & Hs & _ & Hl & _).
  split; [reflexivity|]. split; [exact Hg|]. split; [exact Hs | exact Hl].
Defined.

(** ** Debounce *)

(** C6. A press leaves the whole state unchanged exactly when it comes less
    than 100 ms after the last press that passed the debounce test.  Of two
    presses less than 100 ms apart at most one changes the state.  A press
    outside the window is handled in full: a matching press advances
    [playerIndex] by exactly one (or completes the round and schedules one
    round advance), a mismatch ends the game, and a press while presenting or
    on an empty sequence only records its time. *)
Theorem debounce_drops_exactly_within_window
    (s : State) (now now2 : Z) (color color2 : Pad) :
  let s' := handlePlayerPress now color s in
  (s' = s <-> withinDebounce s now) /\
  (now2 - now < 100 -> s' = s \/ handlePlayerPress now2 color2 s' = s') /\
  (~ withinDebounce s now ->
     lastTap s' = now /\
     (AwaitingInput s -> sequence s !! playerIndex s = Some color ->
        S (playerIndex s) <> length (sequence s) ->
        s' = set_playerIndex (S (playerIndex s)) (set_lastTap now s)) /\
     (AwaitingInput s -> sequence s !! playerIndex s = Some color ->
        S (playerIndex s) = length (sequence s) ->
        s' = setTimeout now 450 TNextRound
               (set_playerIndex 0 (set_lastTap now s))) /\
     (AwaitingInput s -> sequence s !! playerIndex s <> Some color ->
        s' = gameOver (set_lastTap now s)) /\
     (Presenting s \/ sequence s = [] -> s' = set_lastTap now s)).
Proof.
  intros s'. unfold withinDebounce.
  assert (Hin : now - lastTap s < 100 -> s' = s)
    by (intros; by apply press_dropped).
  assert (Hout : 100 <= now - lastTap s -> lastTap s' = now)
    by (intros; by apply press_lastTap).
  split; [|split].
  - split; [|done]. intros E.
    destruct (Z.lt_ge_cases (now - lastTap s) 100) as [|Hge]; [done|].
    specialize (Hout Hge). rewrite E in Hout. lia.
  - intros H2.
    destruct (Z.lt_ge_cases (now - lastTap s) 100) as [Hlt|Hge]; [left; by apply Hin|].
    right. apply press_dropped. rewrite (Hout Hge). done.
  - intros Hn. assert (Hge : 100 <= now - lastTap s) by lia.
    split; [by apply Hout|]. subst s'.
    repeat split.
    + intros [Hp Hs] Hhit Hlast. rewrite press_accepted by done.
      rewrite bool_decide_eq_true_2 by done.
      by destruct (Nat.eqb_spec (S (playerIndex s)) (length (sequence s))).
    + intros [Hp Hs] Hhit Hlast. rewrite press_accepted by done.
      rewrite bool_decide_eq_true_2 by done.
      by destruct (Nat.eqb_spec (S (playerIndex s)) (length (sequence s))).
    + intros [Hp Hs] Hmiss. rewrite press_accepted by done.
      by rewrite bool_decide_eq_false_2.
    + intros Hi. by apply press_ignored.
Qed.

Lemma debounce_drops_exactly_within_window_witness :
  let s := run session_first_round (init None) in
  let s' := handlePlayerPress 2000 green s in
  handlePlayerPress 2050 green s' = s' /\
  lastTap s' = 2000 /\
  s' = setTimeout 2000 450 TNextRound (set_playerIndex 0 (set_lastTap 2000 s)).
Proof.
  intros s s'.
  destruct (debounce_drops_exactly_within_window s 2000 2050 green green)
    as (Hiff & Htwo & Hout).
  assert (Hn : ~ withinDebounce s 2000) by (vm_compute; discriminate).
  assert (Ha : AwaitingInput s) by (split; [reflexivity | by vm_compute]).
  destruct (Hout Hn) as (Ht & _ & Hlast & _).
  split; [|split; [exact Ht | apply Hlast; [exact Ha | reflexivity..]]].
  destruct Htwo as [E|E]; [lia | | exact E].
  apply Hiff in E. contradiction.
Defined.

(** Timers do not touch the debounce timestamp. *)
Lemma nextRound_lastTap (now : Z) (next : Pad) (s : State) :
  lastTap (nextRound now next s) = lastTap s.
Proof.
  unfold nextRound, playSequence.
  match goal with |- context [presentLoop ?n ?r ?i ?b ?t] =>
    destruct (presentLoop_frame n r i b t)
      as (_ & _ & _ & _ & _ & _ & _ & -> & _) end.
  done.
Qed.

Lemma timer_lastTap (now : Z) (k : nat) (next : Pad) (s : State) :
  lastTap (step now (TimerFires k next) s) = lastTap s.
Proof.
  cbn. destruct (timers s !! k) as [[due f]|]; [|done].
  destruct (due <=? now); [|done].
  destruct f as [|seq i base]; cbn [runTask].
  - by rewrite nextRound_lastTap.
  - match goal with |- context [presentLoop ?n ?r ?j ?b ?t] =>
      destruct (presentLoop_frame n r j b t)
        as (_ & _ & _ & _ & _ & _ & _ & -> & _) end.
    done.
Qed.

Lemma timersOnly_lastTap (tr : list (Z * Event)) (s : State) :
  timersOnly tr = true -> lastTap (run tr s) = lastTap s.
Proof.
  revert s. induction tr as [|[now e] tr IH]; intros s H; [done|].
  cbn in H. apply andb_true_iff in H as [He Htr].
  destruct e; try discriminate He.
  cbn [run]. rewrite IH by done. apply timer_lastTap.
Qed.

(** C10. A press that passes the debounce test but is ignored, because a
    presentation is flagged or the sequence is empty, changes nothing but the
    debounce timestamp, which becomes the time of that press.  Any press less
    than 100 ms later is dropped, also when timers have run in between and
    the controller has begun to await input. *)
Theorem ignored_press_arms_debounce (s : State) (now : Z) (color : Pad) :
  100 <= now - lastTap s ->
  Presenting s \/ sequence s = [] ->
  let s' := handlePlayerPress now color s in
  s' = set_lastTap now s /\
  lastTap s' = now /\
  (forall (tr : list (Z * Event)) (now2 : Z) (color2 : Pad),
      timersOnly tr = true -> now2 - now < 100 ->
      handlePlayerPress now2 color2 (run tr s') = run tr s').
Proof.
  intros Hd Hi s'.
  assert (E : s' = set_lastTap now s) by (by apply press_ignored).
  split; [done|]. split; [by rewrite E|].
  intros tr now2 color2 Htr H2. apply press_dropped.
  rewrite timersOnly_lastTap by done. by rewrite E.
Qed.

Lemma ignored_press_arms_debounce_witness :
  let s := run [(1000, StartClick); (1350, TimerFires 0 green)] (init None) in
  let s' := handlePlayerPress 1800 green s in
  let s2 := run [(1842, TimerFires 0 green)] s' in
  Presenting s /\ AwaitingInput s2 /\
  sequence s2 !! playerIndex s2 = Some green /\
  handlePlayerPress 1850 green s2 = s2.
Proof.
  intros s s' s2.
  assert (Hd : 100 <= 1800 - lastTap s) by (vm_compute; discriminate).
  assert (Hp : Presenting s \/ sequence s = []) by (left; reflexivity).
  destruct (ignored_press_arms_debounce s 1800 green Hd Hp) as (_ & _ & H).
  split; [reflexivity|].
  split; [split; [reflexivity | by vm_compute]|].
  split; [reflexivity|].
  apply (H [(1842, TimerFires 0 green)] 1850 green); [reflexivity | lia].
Defined.

(** ** Presentation timing *)

Lemma presentLoop_delay (now : Z) (i : nat) (s : State) :
  (i < length (sequence s))%nat ->
  timers (presentLoop now (seqRef s) i (baseDelay (length (sequence s))) s)
  = timers s ++ [(now + stepDelay (length (sequence s)) i,
                  TPresent (seqRef s) i (baseDelay (length (sequence s))))].
Proof.
  intros Hi. unfold presentLoop. fold (sequence s).
  by rewrite bool_decide_eq_true_2.
Qed.

(** C8. The time awaited after a step of the presentation does not grow with
    the length of the sequence nor with the position of the step, and it is
    never below 140 ms.  This is the delay of the timer in which the loop of
    [playSequence] suspends. *)
Theorem step_delay_monotone_bounded (len len' i i' : nat) (now : Z) (s : State) :
  (len <= len')%nat -> (i <= i')%nat ->
  stepDelay len' i <= stepDelay len i /\
  stepDelay len i' <= stepDelay len i /\
  stepDelay len' i' <= stepDelay len i /\
  140 <= stepDelay len i /\ 0 < stepDelay len i /\
  ((i < length (sequence s))%nat ->
   timers (presentLoop now (seqRef s) i (baseDelay (length (sequence s))) s)
   = timers s ++ [(now + stepDelay (length (sequence s)) i,
                   TPresent (seqRef s) i (baseDelay (length (sequence s))))]).
Proof.
  intros Hl Hi. unfold stepDelay, awaitDelay, baseDelay.
  repeat split; try lia. apply presentLoop_delay.
Qed.

Lemma step_delay_monotone_bounded_witness :
  stepDelay 30 4 <= stepDelay 3 1 /\ 140 <= stepDelay 3 1 /\
  stepDelay 3 1 = 468 /\ stepDelay 30 4 = 228 /\ stepDelay 60 50 = 140.
Proof.
  assert (Hl : (3 <= 30)%nat) by lia.
  assert (Hi : (1 <= 4)%nat) by lia.
  destruct (step_delay_monotone_bounded 3 30 1 4 0 (init None) Hl Hi)
    as (_ & _ & H & Hb & _).
  split; [exact H|]. split; [exact Hb|]. repeat split; reflexivity.
Defined.

(** ** High score *)

Lemma Grows_refl (s : State) : Grows s s.
Proof. split; [lia | done]. Qed.

Lemma Grows_trans (s1 s2 s3 : State) : Grows s1 s2 -> Grows s2 s3 -> Grows s1 s3.
Proof. intros [H1 I1] [H2 I2]. split; [lia | auto]. Qed.

Lemma Grows_frame (s s' : State) :
  arrays s' = arrays s -> seqRef s' = seqRef s -> level s' = level s ->
  highScore s' = highScore s -> storage s' = storage s -> Grows s s'.
Proof.
  intros Ha Hr Hl Hh Hs. unfold Grows, Consistent, sequence.
  rewrite Ha, Hr, Hl, Hh, Hs. split; [lia | done].
Qed.

Lemma Grows_presentLoop (now : Z) (seq i : nat) (base : Z) (s : State) :
  Grows s (presentLoop now seq i base s).
Proof.
  destruct (presentLoop_frame now seq i base s)
    as (Ha & Hr & _ & _ & Hl & Hh & Hs & _).
  by apply Grows_frame.
Qed.

Lemma Grows_startGame (now : Z) (s : State) : Grows s (startGame now s).
Proof.
  unfold Grows, Consistent. rewrite startGame_sequence. cbn.
  split; [lia | tauto].
Qed.

Lemma Grows_gameOver (s : State) : Grows s (gameOver s).
Proof.
  unfold Grows, Consistent. rewrite gameOver_sequence. cbn.
  split; [lia | done].
Qed.

Lemma Grows_nextRound (now : Z) (next : Pad) (s : State) :
  Grows s (nextRound now next s).
Proof.
  unfold Grows, Consistent.
  destruct (nextRound_highScore now next s) as [Hh Hs].
  rewrite Hs, nextRound_level, nextRound_sequence, length_app. cbn.
  rewrite Hh. split; lia.
Qed.

Lemma Grows_handlePlayerPress (now : Z) (color : Pad) (s : State) :
  Grows s (handlePlayerPress now color s).
Proof.
  destruct (Z.lt_ge_cases (now - lastTap s) 100) as [Hlt|Hge];
    [rewrite press_dropped by done; apply Grows_refl|].
  destruct (isPlayingSequence s) eqn:Hp;
    [rewrite press_ignored by auto; by apply Grows_frame|].
  destruct (sequence s) as [|c l] eqn:Hs;
    [rewrite press_ignored by auto; by apply Grows_frame|].
  rewrite press_accepted by (auto; congruence).
  repeat case_match; try (by apply Grows_frame).
  eapply Grows_trans; [|apply Grows_gameOver]. by apply Grows_frame.
Qed.

Lemma Grows_onWindowKeydown (now : Z) (key : string) (s : State) :
  Grows s (onWindowKeydown now key s).
Proof.
  unfold onWindowKeydown.
  set (s1 := pressKey now (toLowerCase key) s).
  assert (H : Grows s s1)
    by (subst s1; destruct (pressKey_cases now (toLowerCase key) s)
          as [-> | [c ->]]; [apply Grows_refl | apply Grows_handlePlayerPress]).
  clearbody s1.
  destruct (isActivationKey key && (level s1 =? 0)); [|done].
  eapply Grows_trans; [exact H | apply Grows_startGame].
Qed.

Lemma Grows_step (now : Z) (e : Event) (s : State) : Grows s (step now e s).
Proof.
  destruct e as [pad|pad key|key| | | |k next]; cbn [step].
  - apply Grows_handlePlayerPress.
  - eapply Grows_trans; [|apply Grows_onWindowKeydown].
    unfold onPadKeydown. case_match;
      [apply Grows_handlePlayerPress | apply Grows_refl].
  - apply Grows_onWindowKeydown.
  - apply Grows_startGame.
  - eapply Grows_trans; [|apply Grows_startGame]. by apply Grows_frame.
  - by apply Grows_frame.
  - destruct (timers s !! k) as [[due f]|]; [|apply Grows_refl].
    destruct (due <=? now); [|apply Grows_refl].
    apply (Grows_trans _ (set_timers (delete k (timers s)) s));
      [by apply Grows_frame|].
    destruct f; cbn [runTask];
      [apply Grows_nextRound | apply Grows_presentLoop].
Qed.


Lemma init_Consistent (stored : option Z) : Consistent (init stored).
Proof. split; reflexivity. Qed.





(** ** Growth of the sequence *)

Lemma KeepOrClear_refl (s : State) : KeepOrClear s s.
Proof. by left. Qed.

Lemma KeepOrClear_trans (s1 s2 s3 : State) :
  KeepOrClear s1 s2 -> KeepOrClear s2 s3 -> KeepOrClear s1 s3.
Proof.
  unfold KeepOrClear. intros [H1|H1] [H2|H2]; rewrite ?H2, ?H1; auto.
Qed.

Lemma KeepOrClear_handlePlayerPress (now : Z) (color : Pad) (s : State) :
  KeepOrClear s (handlePlayerPress now color s).
Proof.
  destruct (Z.lt_ge_cases (now - lastTap s) 100) as [Hlt|Hge];
    [rewrite press_dropped by done; by left|].
  destruct (isPlayingSequence s) eqn:Hp;
    [rewrite press_ignored by auto; by left|].
  destruct (sequence s) as [|c l] eqn:Hs;
    [rewrite press_ignored by auto; by left|].
  rewrite press_accepted by (auto; congruence).
  repeat case_match; try (by left).
  right. apply gameOver_sequence.
Qed.

Lemma KeepOrClear_onWindowKeydown (now : Z) (key : string) (s : State) :
  KeepOrClear s (onWindowKeydown now key s).
Proof.
  unfold onWindowKeydown.
  set (s1 := pressKey now (toLowerCase key) s).
  assert (H : KeepOrClear s s1)
    by (subst s1; destruct (pressKey_cases now (toLowerCase key) s)
          as [-> | [c ->]];
        [apply KeepOrClear_refl | apply KeepOrClear_handlePlayerPress]).
  clearbody s1.
  destruct (isActivationKey key && (level s1 =? 0)); [|done].
  right. apply startGame_sequence.
Qed.

(** An event keeps the sequence, clears it, or appends one pad to it. *)
Lemma step_sequence (now : Z) (e : Event) (s : State) :
  KeepOrClear s (step now e s) \/
  exists c, sequence (step now e s) = sequence s ++ [c].
Proof.
  destruct e as [pad|pad key|key| | | |k next]; cbn [step].
  - left. apply KeepOrClear_handlePlayerPress.
  - left. eapply KeepOrClear_trans; [|apply KeepOrClear_onWindowKeydown].
    unfold onPadKeydown. case_match;
      [apply KeepOrClear_handlePlayerPress | apply KeepOrClear_refl].
  - left. apply KeepOrClear_onWindowKeydown.
  - left. right. apply startGame_sequence.
  - left. right. apply startGame_sequence.
  - left. by left.
  - destruct (timers s !! k) as [[due f]|]; [|left; by left].
    destruct (due <=? now); [|left; by left].
    destruct f as [|seq i base]; cbn [runTask].
    + right. exists next. by rewrite nextRound_sequence.
    + left. left. by rewrite presentLoop_sequence.
Qed.

(** [nextRound], in one piece: the sequence is never empty after the push, so
    the presentation suspends in its first timer. *)
Lemma nextRound_unfold (now : Z) (next : Pad) (s : State) :
  let len := S (length (sequence s)) in
  nextRound now next s
  = setTimeout now (awaitDelay (baseDelay len) 0)
      (TPresent (seqRef s) 0 (baseDelay len))
      (set_isPlayingSequence true
         (saveHighScore (Z.of_nat len - 1)
            (set_level (Z.of_nat len) (sequence_push next s)))).
Proof.
  cbv zeta. unfold nextRound, playSequence, presentLoop.
  rewrite sequence_push_app. cbn. rewrite lookup_insert_eq. cbn.
  rewrite length_app. cbn. rewrite Nat.add_1_r.
  by rewrite bool_decide_eq_true_2 by lia.
Qed.

Lemma fireHead_timer (next : Pad) (clock due : Z) (f : Task)
    (rest : list (Z * Task)) (s : State) :
  timers s = (due, f) :: rest ->
  fireHead next (clock, s)
  = (Z.max clock due, runTask (Z.max clock due) next f (set_timers rest s)).
Proof.
  intros H. unfold fireHead. cbn. rewrite H. cbn.
  destruct (Z.leb_spec due (Z.max clock due)); [done | lia].
Qed.

(** A presentation suspended at step [i] of a sequence with [S n] steps left
    runs to its end: the flag is cleared and nothing else has changed. *)
Lemma watch_presentation (n : nat) :
  forall (clock : Z) (s : State) (d : Z) (i : nat) (base : Z),
    timers s = [(d, TPresent (seqRef s) i base)] ->
    length (sequence s) = (i + S n)%nat ->
    exists clock', clock <= clock' /\
      watch (S n) (clock, s)
      = (clock', set_isPlayingSequence false (set_timers [] s)).
Proof.
  induction n as [|n IH]; intros clock s d i base Ht Hl.
  - exists (Z.max clock d). split; [lia|]. cbn [watch].
    rewrite (fireHead_timer _ _ _ _ _ _ Ht). cbn [runTask].
    unfold presentLoop. cbn [arrays set_timers]. fold (sequence s).
    by rewrite bool_decide_eq_false_2 by lia.
  - change (watch (S (S n)) (clock, s))
      with (watch (S n) (fireHead green (clock, s))).
    rewrite (fireHead_timer _ _ _ _ _ _ Ht). cbn [runTask].
    unfold presentLoop. cbn [arrays set_timers]. fold (sequence s).
    rewrite bool_decide_eq_true_2 by lia.
    set (now := Z.max clock d).
    set (s2 := setTimeout now (awaitDelay base (S i))
                 (TPresent (seqRef s) (S i) base) (set_timers [] s)).
    destruct (IH now s2 (now + awaitDelay base (S i)) (S i) base)
      as (clock' & Hc & E); [done | |].
    + change (sequence s2) with (sequence s). lia.
    + exists clock'. split; [lia | exact E].
Qed.

(** The player repeats what is left of the sequence: the round is complete
    at the last press. *)
Lemma replay_completes (gap : Z) (rest : list Pad) :
  100 <= gap -> rest <> [] ->
  forall (pre : list Pad) (clock : Z) (s : State),
    sequence s = pre ++ rest -> playerIndex s = length pre ->
    isPlayingSequence s = false -> lastTap s <= clock ->
    exists clock', clock <= clock' /\
      replay gap rest (clock, s)
      = (clock', setTimeout clock' 450 TNextRound
                   (set_playerIndex 0 (set_lastTap clock' s))).
Proof.
  intros Hg. induction rest as [|c rest IH]; [done|].
  intros _ pre clock s Hs Hi Hp Hl. cbn [replay fst snd step].
  assert (Hhit : sequence s !! playerIndex s = Some c)
    by (rewrite Hs, Hi; apply list_lookup_middle; done).
  rewrite press_accepted; [|lia|done|by rewrite Hs; destruct pre].
  rewrite bool_decide_eq_true_2 by done.
  destruct rest as [|c' rest].
  - exists (clock + gap). split; [lia|]. cbn [replay].
    rewrite Hs, Hi, length_app. cbn [length].
    by destruct (Nat.eqb_spec (S (length pre)) (length pre + 1)); [|lia].
  - destruct (Nat.eqb_spec (S (playerIndex s)) (length (sequence s))) as [Heq|_];
      [rewrite Hs, Hi, length_app in Heq; cbn in Heq; lia|].
    set (now := clock + gap).
    set (s2 := set_playerIndex (S (playerIndex s)) (set_lastTap now s)).
    destruct (IH ltac:(done) (pre ++ [c]) now s2) as (clock' & Hc & E).
    + change (sequence s2) with (sequence s). by rewrite Hs, <- app_assoc.
    + cbn. rewrite Hi, length_app. cbn. lia.
    + done.
    + cbn. lia.
    + exists clock'. split; [lia | exact E].
Qed.

Lemma startGame_RoundComplete (t0 : Z) (s0 : State) :
  timers s0 = [] -> lastTap s0 <= t0 ->
  RoundComplete [] (t0, startGame t0 s0).
Proof.
  intros Ht Hl. unfold RoundComplete. cbn [fst snd].
  rewrite startGame_sequence. cbn. rewrite Ht.
  repeat split; [by eexists | done].
Qed.

Lemma playRound_RoundComplete (gap : Z) (seq : list Pad) (next : Pad)
    (cs : Z * State) :
  100 <= gap -> RoundComplete seq cs ->
  RoundComplete (seq ++ [next]) (playRound gap cs next).
Proof.
  intros Hg. destruct cs as [clock s].
  intros (Hs & Hv & Hi & [due Ht] & Hl). cbn [fst snd] in *.
  unfold playRound. rewrite (fireHead_timer _ _ _ _ _ _ Ht). cbn [runTask].
  set (now := Z.max clock due).
  set (s1 := nextRound now next (set_timers [] s)).
  assert (Hs1 : sequence s1 = seq ++ [next])
    by (subst s1; rewrite nextRound_sequence; by rewrite <- Hs).
  assert (E1 : s1 = nextRound now next (set_timers [] s)) by done.
  rewrite nextRound_unfold in E1. cbv zeta in E1.
  cbn [snd]. rewrite Hs1.
  destruct (watch_presentation (length seq) now s1
              (now + awaitDelay (baseDelay (S (length (sequence s)))) 0)
              0 (baseDelay (S (length (sequence s)))))
    as (clock1 & Hc1 & Ew).
  { rewrite E1. cbn. done. }
  { rewrite Hs1, length_app. cbn. lia. }
  rewrite length_app, Nat.add_1_r. cbn [length]. rewrite Ew. cbn [snd].
  set (s2 := set_isPlayingSequence false (set_timers [] s1)).
  change (sequence s2) with (sequence s1). rewrite Hs1.
  destruct (replay_completes gap (seq ++ [next]) Hg ltac:(by destruct seq)
              [] clock1 s2) as (clock2 & Hc2 & Er).
  { done. }
  { subst s2. rewrite E1. cbn. done. }
  { done. }
  { subst s2. rewrite E1. cbn. lia. }
  rewrite Er. unfold RoundComplete. cbn [fst snd].
  split; [exact Hs1|]. split.
  { change (level s1 = Z.of_nat (length (seq ++ [next]))). subst s1.
    rewrite nextRound_level. change (sequence (set_timers [] s)) with (sequence s).
    rewrite Hs, length_app. cbn. lia. }
  split; [done|]. split; [by eexists | cbn; lia].
Qed.

Lemma playRounds_RoundComplete (gap : Z) (draws seq : list Pad) (cs : Z * State) :
  100 <= gap -> RoundComplete seq cs ->
  RoundComplete (seq ++ draws) (playRounds gap draws cs).
Proof.
  intros Hg. revert seq cs. unfold playRounds.
  induction draws as [|c draws IH]; intros seq cs H; cbn [foldl].
  - by rewrite app_nil_r.
  - replace (seq ++ c :: draws) with ((seq ++ [c]) ++ draws)
      by (by rewrite <- app_assoc).
    apply IH. by apply playRound_RoundComplete.
Qed.

(** ** Presentation *)





(** C4. A game started from an idle state and played faultlessly for as many
    rounds as there are draws has, when the last of these rounds is complete,
    exactly the drawn pads as its sequence, one per round, and [level] is
    their number.  Every round advance appends the drawn pad at the end and
    leaves the earlier pads in place; no event changes the sequence in another
    way than keeping it, clearing it or appending one pad.  From [green],
    pressing green completes the round, and the round advance yields a
    sequence of length 2 that starts with green. *)
Theorem sequence_grows_one_per_round
    (gap t0 now : Z) (s0 s : State) (draws : list Pad) (next : Pad) (e : Event) :
  100 <= gap -> timers s0 = [] -> lastTap s0 <= t0 ->
  let final := playRounds gap draws (t0, startGame t0 s0) in
  RoundComplete draws final /\
  length (sequence (snd final)) = length draws /\
  level (snd final) = Z.of_nat (length draws) /\
  sequence (nextRound now next s) = sequence s ++ [next] /\
  length (sequence (nextRound now next s)) = S (length (sequence s)) /\
  (forall i : nat, (i < length (sequence s))%nat ->
     sequence (nextRound now next s) !! i = sequence s !! i) /\
  (KeepOrClear s (step now e s) \/
   exists c, sequence (step now e s) = sequence s ++ [c]) /\
  (let s1 := run session_round_complete (init None) in
   sequence (run session_first_round (init None)) = [green] /\
   RoundComplete [green] (2000, s1) /\
   forall c, sequence (step 2450 (TimerFires 0 c) s1) = [green; c]).
Proof.
  intros Hg Ht Hl final.
  assert (Hrc : RoundComplete draws final)
    by (apply (playRounds_RoundComplete gap draws [] _ Hg);
        by apply startGame_RoundComplete).
  split; [exact Hrc|]. destruct Hrc as (Hs & Hv & _).
  split; [by rewrite Hs|]. split; [exact Hv|].
  rewrite nextRound_sequence.
  split; [done|]. split; [rewrite length_app; cbn; lia|].
  split; [intros i Hi; by apply lookup_app_l|].
  split; [apply step_sequence|].
  cbv zeta. split; [reflexivity|]. split.
  - unfold RoundComplete. cbn [fst snd].
    split; [reflexivity|]. split; [reflexivity|]. split; [reflexivity|].
    split; [by eexists | by vm_compute].
  - intros c. by destruct c.
Qed.

Lemma sequence_grows_one_per_round_witness :
  let final := playRounds 150 [green; red; blue] (1000, startGame 1000 (init None)) in
  RoundComplete [green; red; blue] final /\
  length (sequence (snd final)) = 3%nat /\
  sequence (nextRound 5000 yellow (snd final)) = [green; red; blue; yellow].
Proof.
  intros final.
  assert (Hg : 100 <= 150) by lia.
  assert (Ht : timers (init None) = []) by reflexivity.
  assert (Hl : lastTap (init None) <= 1000) by (vm_compute; discriminate).
  destruct (sequence_grows_one_per_round 150 1000 5000 (init None) (snd final)
              [green; red; blue] yellow StartClick Hg Ht Hl)
    as (Hrc & Hlen & _ & Happ & _).
  split; [exact Hrc|]. split; [exact Hlen|].
  rewrite Happ. destruct Hrc as (Hs & _). fold final in Hs. by rewrite Hs.
Defined.

(** ** Start control *)

(** C3, at a failing input.  The first round, [green], has been presented and
    the controller awaits input at level 1.  The start key changes nothing
    ([level] is not 0), but a click on the start button clears the sequence
    and the level and schedules a round advance.  The same click during the
    presentation restarts the game while the presentation of the old array
    is still pending. *)
Theorem start_button_restarts_running_game :
  let idle := init None in
  let presenting := run [(1000, StartClick); (1350, TimerFires 0 green)] idle in
  let awaiting := run session_first_round idle in
  (Presenting presenting /\ sequence presenting = [green]) /\
  (AwaitingInput awaiting /\ sequence awaiting = [green] /\
   level awaiting = 1 /\ timers awaiting = []) /\
  step 2000 (WindowKeyDown " ") awaiting = awaiting /\
  step 2000 (WindowKeyDown "Enter") awaiting = awaiting /\
  (let s' := step 2000 StartClick awaiting in
   s' <> awaiting /\ sequence s' = [] /\ level s' = 0 /\
   timers s' = [(2350, TNextRound)]) /\
  (let s' := step 1400 StartClick presenting in
   s' <> presenting /\ sequence s' = [] /\ level s' = 0 /\
   isPlayingSequence s' = true /\
   timers s' = [(1842, TPresent 1 0 492); (1750, TNextRound)]).
Proof.
  cbv zeta.
  split; [split; by vm_compute|].
  split; [split; [split; by vm_compute | repeat split; by vm_compute]|].
  split; [by vm_compute|]. split; [by vm_compute|].
  split; (split; [intros E; apply (f_equal level) in E; by vm_compute in E
                 | repeat split; by vm_compute]).
Qed.

(** ** Stale timers *)

(** C7 fails.  The round [green] is completed at 2000, which schedules the
    round advance for 2450.  A wrong press at 2200 ends the game and retry at
    2250 starts a new one.  The round advance of the old game is still
    pending: it runs at 2450 and puts [red] into the sequence of the new
    game, whose own round advance at 2600 adds [blue], so that the first
    round of the new game has two pads. *)
Lemma stale_round_advance_reaches_new_game :
  let before := run session_round_complete (init None) in
  let reset := run session_retry (init None) in
  let stale := step 2450 (TimerFires 0 red) reset in
  let first := step 2600 (TimerFires 0 blue) stale in
  chronological 0 (session_retry
                   ++ [(2450, TimerFires 0 red); (2600, TimerFires 0 blue)]) = true /\
  timers before = [(2450, TNextRound)] /\
  timers reset = [(2450, TNextRound); (2600, TNextRound)] /\
  sequence reset = [] /\ level reset = 0 /\
  sequence stale = [red] /\ level stale = 1 /\
  sequence stale <> sequence reset /\ level stale <> level reset /\
  sequence first = [red; blue] /\ level first = 2.
Proof.
  cbv zeta. repeat split; by vm_compute.
Qed.

Lemma startGame_timers (now : Z) (s : State) :
  timers (startGame now s) = timers s ++ [(now + 350, TNextRound)].
Proof. reflexivity. Qed.

(** C7, amended.  A reset by start or retry clears the sequence,
    [playerIndex] and [level] at once and cancels no timer: every timer that
    was pending is still pending.  When a presentation step scheduled before
    the reset runs, the sequence, [playerIndex] and [level] of the new game
    stay as the reset left them.  When a round advance scheduled before the
    reset runs, it draws a pad and appends it to the sequence of the new
    game. *)
Theorem reset_clears_state_but_keeps_timers
    (s : State) (now t due : Z) (k : nat) (f : Task) (next : Pad) :
  timers s !! k = Some (due, f) -> due <= t ->
  forall s' : State, s' = startGame now s \/ s' = onRetryClick now s ->
  (sequence s' = [] /\ playerIndex s' = 0%nat /\ level s' = 0) /\
  timers s' = timers s ++ [(now + 350, TNextRound)] /\
  timers s' !! k = Some (due, f) /\
  (let s'' := step t (TimerFires k next) s' in
   match f with
   | TPresent _ _ _ =>
       sequence s'' = [] /\ playerIndex s'' = 0%nat /\ level s'' = 0
   | TNextRound =>
       sequence s'' = [next] /\ playerIndex s'' = 0%nat /\ level s'' = 1
   end).
Proof.
  intros Hk Hdue s' Hs'.
  assert (Hseq : sequence s' = [])
    by (destruct Hs' as [-> | ->]; apply startGame_sequence).
  assert (Hrest : playerIndex s' = 0%nat /\ level s' = 0 /\
                  timers s' = timers s ++ [(now + 350, TNextRound)])
    by (destruct Hs' as [-> | ->]; repeat split; reflexivity).
  destruct Hrest as (Hi & Hv & Ht).
  assert (Hk' : timers s' !! k = Some (due, f))
    by (rewrite Ht; by apply lookup_app_l_Some).
  split; [done|]. split; [done|]. split; [done|].
  cbv zeta. cbn [step]. rewrite Hk'.
  destruct (Z.leb_spec due t); [|lia].
  set (s1 := set_timers (delete k (timers s')) s').
  assert (Hseq1 : sequence s1 = []) by (by rewrite <- Hseq).
  destruct f as [|seq i base]; cbn [runTask].
  - rewrite nextRound_sequence, nextRound_level, Hseq1.
    split; [done|]. split; [|done].
    unfold nextRound, playSequence.
    match goal with |- context [presentLoop ?n ?r ?j ?b ?u] =>
      destruct (presentLoop_frame n r j b u) as (_ & _ & _ & -> & _) end.
    done.
  - rewrite presentLoop_sequence.
    destruct (presentLoop_frame t seq (S i) base s1)
      as (_ & _ & _ & -> & -> & _).
    done.
Qed.

Lemma reset_clears_state_but_keeps_timers_witness :
  let before := run session_round_complete (init None) in
  let s' := onRetryClick 2250 (step 2200 (PadPointerDown red) before) in
  timers s' !! 0%nat = Some (2450, TNextRound) /\
  sequence (step 2450 (TimerFires 0 red) s') = [red].
Proof.
  intros before s'.
  assert (Hk : timers (step 2200 (PadPointerDown red) before) !! 0%nat
               = Some (2450, TNextRound)) by reflexivity.
  assert (Hd : 2450 <= 2450) by lia.
  destruct (reset_clears_state_but_keeps_timers
              (step 2200 (PadPointerDown red) before) 2250 2450 2450 0
              TNextRound red Hk Hd s' (or_intror eq_refl))
    as (_ & _ & Hp & Hs & _).
  split; [exact Hp | exact Hs].
Defined.

(** ** The static file server *)

(** The [mimeTypes] table, entry by entry. *)
Lemma mimeTypes_lookup (ext : string) :
  default "text/plain" (Server.mimeTypes !! ext)
  = if String.eqb ext ".html" then "text/html"
    else if String.eqb ext ".js" then "text/javascript"
    else if String.eqb ext ".css" then "text/css"
    else "text/plain".
Proof.
  unfold Server.mimeTypes.
  destruct (String.eqb_spec ext ".html") as [->|H1]; [done|].
  destruct (String.eqb_spec ext ".js") as [->|H2]; [done|].
  destruct (String.eqb_spec ext ".css") as [->|H3]; [done|].
  rewrite !lookup_insert_ne, lookup_singleton_ne by done. done.
Qed.

(** C9 fails as worded.  A missing script is answered with 404 and content
    type text/html; a document whose extension is in capitals is served as
    text/html; a file named [.html] has no extension and is served as
    text/plain; a file that cannot be read is answered with 500 and no
    content type at all. *)
Lemma content_type_not_by_path_ending :
  (Server.endsWith ".js" "/missing.js" = true /\
   Server.tableContentType "/missing.js" = "text/javascript" /\
   Server.serve "/missing.js"
   = Server.mkResponse 404 (Some "text/html") "<h1>404 - File Not Found</h1>" /\
   Server.contentType (Server.serve "/missing.js")
   <> Some (Server.tableContentType "/missing.js")) /\
  (Server.endsWith ".html" "/README.HTML" = false /\
   Server.tableContentType "/README.HTML" = "text/plain" /\
   Server.serve "/README.HTML"
   = Server.mkResponse 200 (Some "text/html") "<p>Simon</p>" /\
   Server.contentType (Server.serve "/README.HTML")
   <> Some (Server.tableContentType "/README.HTML")) /\
  (Server.endsWith ".html" "/.html" = true /\
   Server.serve "/.html" = Server.mkResponse 200 (Some "text/plain") "dotfile" /\
   Server.contentType (Server.serve "/.html")
   <> Some (Server.tableContentType "/.html")) /\
  (Server.endsWith ".css" "/secret.css" = true /\
   Server.status (Server.serve "/secret.css") = 500 /\
   Server.contentType (Server.serve "/secret.css") = None).
Proof. repeat split; by vm_compute. Qed.

(** C9, amended.  The file read is the one that [path.join] resolves under
    the server's directory, [/] standing for [/game.html].  When the read
    succeeds the answer is 200 with the bytes of the file and the content type
    that the table gives for the lower-cased [path.extname] of the resolved
    path: text/html for [.html], text/javascript for [.js], text/css for
    [.css], text/plain otherwise.  When the read fails with [ENOENT] the
    answer is 404 with content type text/html and a one-line body, whatever
    the extension; any other failure is answered with 500, no content type,
    and the rendering of the error.  A request for [/] is answered exactly as
    a request for [/game.html]. *)
Theorem handler_response
    (dirname : string) (join : string -> string -> string)
    (extname : string -> string) (readFile : string -> Server.ReadResult)
    (url : string) :
  let h := Server.handler dirname join extname readFile in
  let filePath := Server.resolve dirname join url in
  let ext := toLowerCase (extname filePath) in
  Server.resolve dirname join "/" = join dirname "/game.html" /\
  (url <> "/" -> filePath = join dirname url) /\
  h "/" = h "/game.html" /\
  (forall data, readFile filePath = Server.ReadOk data ->
     Server.status (h url) = 200 /\ Server.body (h url) = data /\
     Server.contentType (h url)
     = Some (if String.eqb ext ".html" then "text/html"
             else if String.eqb ext ".js" then "text/javascript"
             else if String.eqb ext ".css" then "text/css"
             else "text/plain")) /\
  (forall err, readFile filePath = Server.ReadErr err ->
     Server.code err = "ENOENT" ->
     h url = Server.mkResponse 404 (Some "text/html")
               "<h1>404 - File Not Found</h1>") /\
  (forall err, readFile filePath = Server.ReadErr err ->
     Server.code err <> "ENOENT" ->
     h url = Server.mkResponse 500 None
               ("Server Error: " ++ Server.rendering err)).
Proof.
  intros h filePath ext. subst h filePath ext.
  split; [reflexivity|]. split.
  { intros Hne. unfold Server.resolve.
    by destruct (String.eqb_spec url "/"). }
  split; [reflexivity|].
  unfold Server.handler. split; [|split].
  - intros data ->. cbn. by rewrite mimeTypes_lookup.
  - intros err -> Hc. by rewrite Hc.
  - intros err -> Hc. by destruct (String.eqb_spec (Server.code err) "ENOENT").
Qed.

Lemma handler_response_witness :
  Server.serve "/" = Server.serve "/game.html" /\
  Server.body (Server.serve "/") = "<!doctype html>" /\
  Server.contentType (Server.serve "/game.js") = Some "text/javascript" /\
  Server.serve "/missing.html"
  = Server.mkResponse 404 (Some "text/html") "<h1>404 - File Not Found</h1>" /\
  Server.status (Server.serve "/secret.css") = 500.
Proof.
  destruct (handler_response "/app" Server.join_normalised Server.posix_extname
              Server.files "/game.js") as (_ & _ & Hroot & Hok & _).
  destruct (handler_response "/app" Server.join_normalised Server.posix_extname
              Server.files "/missing.html") as (_ & _ & _ & _ & H404 & _).
  destruct (handler_response "/app" Server.join_normalised Server.posix_extname
              Server.files "/secret.css") as (_ & _ & _ & _ & _ & H500).
  split; [exact Hroot|]. split; [reflexivity|].
  split; [exact (proj2 (proj2 (Hok _ eq_refl)))|].
  split; [exact (H404 _ eq_refl eq_refl)|].
  unfold Server.serve. rewrite (H500 _ eq_refl); [reflexivity | by vm_compute].
Defined.

(** * Properties of the whole controller *)

(** ** Case analysis of handlers *)

(** What a press can do. *)
Lemma press_outcomes (now : Z) (c : Pad) (s : State) :
  let s' := handlePlayerPress now c s in
  (now - lastTap s < 100 /\ s' = s) \/
  (100 <= now - lastTap s /\
   ((~ AwaitingInput s /\ s' = set_lastTap now s) \/
    (AwaitingInput s /\ sequence s !! playerIndex s = Some c /\
     S (playerIndex s) <> length (sequence s) /\
     s' = set_playerIndex (S (playerIndex s)) (set_lastTap now s)) \/
    (AwaitingInput s /\ sequence s !! playerIndex s = Some c /\
     S (playerIndex s) = length (sequence s) /\
     s' = setTimeout now 450 TNextRound (set_playerIndex 0 (set_lastTap now s))) \/
    (AwaitingInput s /\ sequence s !! playerIndex s <> Some c /\
     s' = gameOver (set_lastTap now s)))).
Proof.
  cbv zeta.
  destruct (Z.lt_ge_cases (now - lastTap s) 100) as [Hlt|Hge];
    [left; split; [done | by apply press_dropped]|].
  right. split; [done|].
  destruct (isPlayingSequence s) eqn:Hp.
  { left. split; [intros [? _]; congruence | apply press_ignored; auto]. }
  destruct (sequence s) as [|c0 l] eqn:Hs.
  { left. split; [intros [_ ?]; congruence | apply press_ignored; auto]. }
  assert (Ha : AwaitingInput s) by (split; [done | congruence]).
  right. rewrite press_accepted by (auto; congruence). rewrite <- Hs.
  case_bool_decide as Hhit.
  - destruct (Nat.eqb_spec (S (playerIndex s)) (length (sequence s)));
      [right; left | left]; done.
  - right. right. done.
Qed.

(** A relation that holds across the handlers of the player's events holds
    across each of these events. *)
Lemma input_preorder (R : State -> State -> Prop) :
  (forall s, R s s) ->
  (forall s1 s2 s3, R s1 s2 -> R s2 s3 -> R s1 s3) ->
  (forall now c s, R s (handlePlayerPress now c s)) ->
  (forall now s, R s (startGame now s)) ->
  (forall s, R s (hideGameOverOverlay s)) ->
  forall now e s, isTimerEvent e = false -> R s (step now e s).
Proof.
  intros Hrefl Htrans Hpress Hstart Hhide now e s He.
  assert (Hwin : forall key s0, R s0 (onWindowKeydown now key s0)).
  { intros key s0. unfold onWindowKeydown.
    set (s1 := pressKey now (toLowerCase key) s0).
    assert (H : R s0 s1)
      by (subst s1; destruct (pressKey_cases now (toLowerCase key) s0)
            as [-> | [c ->]]; auto).
    clearbody s1.
    destruct (isActivationKey key && (level s1 =? 0)); eauto. }
  destruct e as [pad|pad key|key| | | |k next]; cbn [step]; auto.
  - apply (Htrans _ (onPadKeydown now pad key s)); [|apply Hwin].
    unfold onPadKeydown. case_match; auto.
  - apply (Htrans _ (hideGameOverOverlay s)); [apply Hhide | apply Hstart].
  - discriminate He.
Qed.

(** A relation that holds across the elementary updates holds across every
    event. *)
Lemma step_preorder (R : State -> State -> Prop) :
  (forall s, R s s) ->
  (forall s1 s2 s3, R s1 s2 -> R s2 s3 -> R s1 s3) ->
  (forall now c s, R s (handlePlayerPress now c s)) ->
  (forall now s, R s (startGame now s)) ->
  (forall s, R s (hideGameOverOverlay s)) ->
  (forall k s, R s (set_timers (delete k (timers s)) s)) ->
  (forall now next s, R s (nextRound now next s)) ->
  (forall now seq i base s, R s (presentLoop now seq i base s)) ->
  forall now e s, R s (step now e s).
Proof.
  intros Hrefl Htrans Hpress Hstart Hhide Hdel Hnext Hloop now e s.
  destruct (isTimerEvent e) eqn:He; [|by apply input_preorder].
  destruct e as [| | | | | |k next]; try discriminate He. cbn [step].
  destruct (timers s !! k) as [[due f]|]; [|auto].
  destruct (due <=? now); [|auto].
  apply (Htrans _ (set_timers (delete k (timers s)) s)); [auto|].
  destruct f; cbn [runTask]; auto.
Qed.

(** An invariant of the elementary updates is an invariant of sessions. *)
Lemma run_invariant (I : State -> Prop) :
  (forall now e s, I s -> I (step now e s)) ->
  forall tr s, I s -> I (run tr s).
Proof.
  intros Hstep tr. induction tr as [|[now e] tr IH]; intros s Hs; [done|].
  cbn [run]. apply IH, Hstep, Hs.
Qed.

(** ** Invariants of every session *)

Lemma nextRound_frame (now : Z) (next : Pad) (s : State) :
  let s' := nextRound now next s in
  playerIndex s' = playerIndex s /\ lastTap s' = lastTap s /\
  overlay s' = overlay s /\ seqRef s' = seqRef s /\ nextRef s' = nextRef s /\
  isPlayingSequence s' = true.
Proof. cbv zeta. rewrite nextRound_unfold. cbn. done. Qed.

Lemma WellFormed_frame (s s' : State) :
  arrays s' = arrays s -> seqRef s' = seqRef s ->
  playerIndex s' = playerIndex s -> level s' = level s ->
  highScore s' = highScore s -> storage s' = storage s ->
  overlay s' = overlay s ->
  WellFormed s -> WellFormed s'.
Proof.
  intros Ha Hr Hi Hl Hh Hs Ho.
  unfold WellFormed, Consistent, IndexInRange, OverlayBounded, sequence.
  by rewrite Ha, Hr, Hi, Hl, Hh, Hs, Ho.
Qed.

Lemma WellFormed_gameOver (s : State) :
  WellFormed s -> sequence s <> [] -> WellFormed (gameOver s).
Proof.
  intros (Hc & _ & _) Hne.
  split; [by apply Grows_gameOver|]. split; [by left|].
  intros v Hv. cbn in Hv. injection Hv as <-. cbn.
  destruct Hc as [_ Hl]. destruct (sequence s); [done|]. cbn in Hl. lia.
Qed.

Lemma WellFormed_handlePlayerPress (now : Z) (c : Pad) (s : State) :
  WellFormed s -> WellFormed (handlePlayerPress now c s).
Proof.
  intros Hw.
  destruct (press_outcomes now c s)
    as [[_ ->] | [_ [[_ ->] | [(Ha & Hhit & Hn & ->) | [(Ha & Hhit & Hl & ->)
                                | (Ha & Hmiss & ->)]]]]]; [done|..].
  - by apply (WellFormed_frame s).
  - destruct Hw as (Hc & _ & Ho). split; [done|]. split; [|done].
    right. cbn. change (sequence (set_playerIndex _ _)) with (sequence s).
    apply lookup_lt_Some in Hhit. lia.
  - destruct Hw as (Hc & _ & Ho). split; [done|]. split; [by left | done].
  - apply WellFormed_gameOver; [by apply (WellFormed_frame s) | apply Ha].
Qed.

Lemma WellFormed_step (now : Z) (e : Event) (s : State) :
  WellFormed s -> WellFormed (step now e s).
Proof.
  revert now e s.
  apply (step_preorder (fun s s' => WellFormed s -> WellFormed s')); auto.
  - intros now c s. apply WellFormed_handlePlayerPress.
  - intros now s (Hc & _ & Ho).
    split; [by apply Grows_startGame|]. split; [by left | done].
  - intros s (Hc & Hi & _). split; [done|]. split; [done|]. intros v Hv. done.
  - intros now next s (Hc & Hi & Ho).
    destruct (nextRound_frame now next s) as (Hp & _ & Hov & _).
    destruct (Grows_nextRound now next s) as [Hm Hk].
    split; [by apply Hk|]. split.
    + unfold IndexInRange. rewrite Hp, nextRound_sequence, length_app. cbn.
      destruct Hi; [by left | right; lia].
    + intros v Hv. rewrite Hov in Hv. specialize (Ho v Hv). lia.
  - intros now seq i base s.
    destruct (presentLoop_frame now seq i base s)
      as (Ha & Hr & _ & Hi & Hl & Hh & Hs & _ & Ho).
    by apply WellFormed_frame.
Qed.

Lemma init_WellFormed (stored : option Z) : WellFormed (init stored).
Proof. split; [apply init_Consistent|]. split; [by left | by intros v Hv]. Qed.

Lemma reachable_WellFormed (s : State) : reachable s -> WellFormed s.
Proof.
  intros (stored & tr & ->).
  apply (run_invariant WellFormed WellFormed_step), init_WellFormed.
Qed.

(** X1. In every reachable state [level] is the length of the sequence. *)
Theorem level_is_sequence_length (s : State) :
  reachable s -> level s = Z.of_nat (length (sequence s)).
Proof. intros Hr. by destruct (reachable_WellFormed s Hr) as ([_ Hl] & _). Qed.

Lemma level_is_sequence_length_witness :
  level (run session_round_complete (init None))
  = Z.of_nat (length (sequence (run session_round_complete (init None)))).
Proof.
  apply level_is_sequence_length.
  exists None, session_round_complete. reflexivity.
Defined.

(** X2. In every session whose stored high score is absent or a safe
    integer, the value in [localStorage], read as 0 when absent, is the high
    score in memory after every event; and when a game over or a round
    advance has saved, the entry holds that high score. *)
Theorem storage_mirrors_high_score
    (stored : option Z) (tr : list (Z * Event)) (t : Z) (next : Pad) :
  safeStored stored ->
  let s := run tr (init stored) in
  default 0 (storage s) = highScore s /\
  storage (gameOver s) = Some (highScore (gameOver s)) /\
  storage (nextRound t next s) = Some (highScore (nextRound t next s)).
Proof.
  intros _ s.
  assert (Hr : reachable s) by (by exists stored, tr).
  destruct (reachable_WellFormed s Hr) as ([Hs _] & _).
  split; [exact Hs|]. split; [reflexivity | apply nextRound_highScore].
Qed.

Lemma storage_mirrors_high_score_witness :
  default 0 (storage (run session_retry (init (Some 7))))
  = highScore (run session_retry (init (Some 7))).
Proof.
  assert (Hsafe : safeStored (Some 7))
    by (intros v [= <-]; split; reflexivity).
  exact (proj1 (storage_mirrors_high_score (Some 7) session_retry 0 green Hsafe)).
Defined.

(** X3. In every reachable state [playerIndex] is 0 or an index of the
    sequence; so whenever a press is compared with [sequence[playerIndex]],
    that element exists. *)
Theorem player_index_in_range (s : State) :
  reachable s ->
  (playerIndex s = 0%nat \/ (playerIndex s < length (sequence s))%nat) /\
  (playerIndex s <= length (sequence s))%nat /\
  (AwaitingInput s -> exists c, sequence s !! playerIndex s = Some c).
Proof.
  intros Hr. destruct (reachable_WellFormed s Hr) as (_ & Hi & _).
  split; [exact Hi|]. split; [destruct Hi; lia|].
  intros [_ Hne]. apply lookup_lt_is_Some_2.
  destruct Hi as [-> | Hi]; [|done].
  destruct (sequence s); [done | cbn; lia].
Qed.

Lemma player_index_in_range_witness :
  let s := run session_first_round (init None) in
  exists c, sequence s !! playerIndex s = Some c.
Proof.
  intros s.
  assert (Hr : reachable s) by (exists None, session_first_round; reflexivity).
  assert (Ha : AwaitingInput s) by (split; [reflexivity | by vm_compute]).
  destruct (player_index_in_range s Hr) as (_ & _ & H). exact (H Ha).
Defined.

(** X4. In every reachable state the score shown on the game-over overlay is
    at least 1 and at most the high score. *)
Theorem overlay_score_bounded (s : State) (v : Z) :
  reachable s -> overlay s = Some v -> 1 <= v <= highScore s.
Proof.
  intros Hr Hv. destruct (reachable_WellFormed s Hr) as (_ & _ & Ho).
  by apply Ho.
Qed.

Lemma overlay_score_bounded_witness :
  let s := run (session_round_complete ++ [(2200, PadPointerDown red)]) (init None) in
  overlay s = Some 1 /\ 1 <= 1 <= highScore s.
Proof.
  intros s.
  assert (Hr : reachable s)
    by (exists None, (session_round_complete ++ [(2200, PadPointerDown red)]);
        reflexivity).
  assert (Hv : overlay s = Some 1) by reflexivity.
  split; [exact Hv | exact (overlay_score_bounded s 1 Hr Hv)].
Defined.

Lemma Credited_step (now : Z) (e : Event) (s : State) :
  Credited s -> Credited (step now e s).
Proof.
  revert now e s.
  apply (step_preorder (fun s s' => Credited s -> Credited s')); auto.
  - intros now c s Hc.
    destruct (press_outcomes now c s)
      as [[_ ->] | [_ [[_ ->] | [(_ & _ & _ & ->) | [(_ & _ & _ & ->)
                                 | (_ & _ & ->)]]]]]; try done.
    destruct Hc as [H0 H1]. unfold Credited. cbn. lia.
  - intros now s [H0 H1]. unfold Credited. cbn. lia.
  - intros now next s [H0 H1]. unfold Credited.
    destruct (nextRound_highScore now next s) as [-> _].
    rewrite nextRound_level. lia.
  - intros now seq i base s.
    destruct (presentLoop_frame now seq i base s)
      as (_ & _ & _ & _ & Hl & Hh & _).
    unfold Credited. by rewrite Hl, Hh.
Qed.

(** X5. When the stored high score is absent or not negative, then in every
    state of every session the high score is not negative and is at least
    [level - 1], the number of rounds completed in the running game. *)
Theorem high_score_covers_completed_rounds
    (stored : option Z) (tr : list (Z * Event)) :
  0 <= default 0 stored ->
  let s := run tr (init stored) in
  0 <= highScore s /\ level s - 1 <= highScore s /\
  Z.of_nat (length (sequence s)) - 1 <= highScore s.
Proof.
  intros H0 s.
  assert (Hc : Credited s).
  { apply (run_invariant Credited Credited_step).
    unfold Credited. cbn. lia. }
  assert (Hr : reachable s) by (by exists stored, tr).
  destruct (reachable_WellFormed s Hr) as ([_ Hl] & _).
  destruct Hc as [Ha Hb]. rewrite <- Hl. done.
Qed.

Lemma high_score_covers_completed_rounds_witness :
  let s := run session_round_complete (init (Some 0)) in
  0 <= highScore s /\ level s - 1 <= highScore s.
Proof.
  intros s.
  assert (H0 : 0 <= default 0 (Some 0)) by (cbn; lia).
  destruct (high_score_covers_completed_rounds (Some 0) session_round_complete H0)
    as (Ha & Hb & _).
  split; [exact Ha | exact Hb].
Defined.

(** ** Start keys *)

(** X6. Space and Enter on [window] start a game exactly when [level] is 0,
    and change nothing otherwise.  [level] is still 0 during the delay before
    the first round: a start key pressed then schedules a second round
    advance beside the first. *)
Theorem start_key_guard (now : Z) (key : string) (s : State) :
  isActivationKey key = true ->
  (level s <> 0 -> step now (WindowKeyDown key) s = s) /\
  (level s = 0 -> step now (WindowKeyDown key) s = startGame now s) /\
  (forall (now0 : Z),
     let again := step now (WindowKeyDown key) (startGame now0 s) in
     again = startGame now (startGame now0 s) /\
     timers again
     = timers s ++ [(now0 + 350, TNextRound); (now + 350, TNextRound)]).
Proof.
  intros Hkey.
  assert (E : forall s0, step now (WindowKeyDown key) s0
                         = if level s0 =? 0 then startGame now s0 else s0).
  { intros s0. cbn [step]. unfold onWindowKeydown.
    by rewrite (pressKey_activation _ _ _ Hkey), Hkey. }
  split; [|split].
  - intros Hl. rewrite E. by destruct (Z.eqb_spec (level s) 0).
  - intros Hl. rewrite E. by destruct (Z.eqb_spec (level s) 0).
  - intros now0. cbv zeta. rewrite E. cbn [level startGame setTimeout set_timers
      set_level Z.eqb]. split; [done|]. cbn. by rewrite <- app_assoc.
Qed.

Lemma start_key_guard_witness :
  let s := run session_first_round (init None) in
  step 2000 (WindowKeyDown "Enter") s = s /\
  step 900 (WindowKeyDown " ") (init None) = startGame 900 (init None).
Proof.
  intros s.
  destruct (start_key_guard 2000 "Enter" s eq_refl) as (Hrun & _).
  destruct (start_key_guard 900 " " (init None) eq_refl) as (_ & Hidle & _).
  split; [apply Hrun; by vm_compute | apply Hidle; reflexivity].
Defined.

(** X7. Enter or space on a focused pad presses that pad and then reaches the
    [window] listener: if [level] is 0 after the press, a game is started.
    So a mismatch entered this way ends the game and starts the next one in
    the same event: the overlay shows the level reached while the round
    advance of the new game is already pending. *)
Theorem pad_key_mismatch_restarts
    (s : State) (now : Z) (color : Pad) (key : string) :
  isActivationKey key = true ->
  (step now (PadKeyDown color key) s
   = let s1 := handlePlayerPress now color s in
     if level s1 =? 0 then startGame now s1 else s1) /\
  (AwaitingInput s -> 100 <= now - lastTap s ->
   sequence s !! playerIndex s <> Some color ->
   let s' := step now (PadKeyDown color key) s in
   s' = startGame now (gameOver (set_lastTap now s)) /\
   overlay s' = Some (level s) /\
   timers s' = timers s ++ [(now + 350, TNextRound)]).
Proof.
  intros Hkey.
  assert (E : step now (PadKeyDown color key) s
              = let s1 := handlePlayerPress now color s in
                if level s1 =? 0 then startGame now s1 else s1).
  { cbn [step]. unfold onPadKeydown, onWindowKeydown.
    by rewrite Hkey, (pressKey_activation _ _ _ Hkey). }
  split; [exact E|].
  intros [Hp Hs] Hd Hmiss. cbv zeta. rewrite E. cbv zeta.
  rewrite press_accepted by done. rewrite bool_decide_eq_false_2 by done.
  done.
Qed.

Lemma pad_key_mismatch_restarts_witness :
  let s := run session_first_round (init None) in
  let s' := step 2000 (PadKeyDown red "Enter") s in
  overlay s' = Some 1 /\ timers s' = timers s ++ [(2350, TNextRound)].
Proof.
  intros s s'.
  destruct (pad_key_mismatch_restarts s 2000 red "Enter" eq_refl) as (_ & H).
  assert (Ha : AwaitingInput s) by (split; [reflexivity | by vm_compute]).
  assert (Hd : 100 <= 2000 - lastTap s) by (vm_compute; discriminate).
  assert (Hn : sequence s !! playerIndex s <> Some red) by (by vm_compute).
  destruct (H Ha Hd Hn) as (_ & Ho & Ht).
  split; [exact Ho | exact Ht].
Defined.

(** ** What timers and presses leave alone *)

Lemma timer_frame (now : Z) (k : nat) (next : Pad) (s : State) :
  let s' := step now (TimerFires k next) s in
  playerIndex s' = playerIndex s /\ overlay s' = overlay s.
Proof.
  cbv zeta. cbn [step]. destruct (timers s !! k) as [[due f]|]; [|done].
  destruct (due <=? now); [|done].
  destruct f as [|seq i base]; cbn [runTask].
  - by destruct (nextRound_frame now next (set_timers (delete k (timers s)) s))
      as (-> & _ & -> & _).
  - by destruct (presentLoop_frame now seq (S i) base
                   (set_timers (delete k (timers s)) s))
      as (_ & _ & _ & -> & _ & _ & _ & _ & ->).
Qed.

(** X8. A timer callback never changes [playerIndex], the debounce timestamp
    or the overlay, and never lowers the high score; it leaves the sequence as
    it is or appends the drawn pad.  In particular a round advance does not
    reset [playerIndex]. *)
Theorem timer_keeps_player_state (now : Z) (k : nat) (next : Pad) (s : State) :
  let s' := step now (TimerFires k next) s in
  playerIndex s' = playerIndex s /\ lastTap s' = lastTap s /\
  overlay s' = overlay s /\ highScore s <= highScore s' /\
  (sequence s' = sequence s \/ sequence s' = sequence s ++ [next]) /\
  playerIndex (nextRound now next s) = playerIndex s.
Proof.
  cbv zeta.
  destruct (nextRound_frame now next s) as (Hnp & _).
  destruct (timer_frame now k next s) as (Hi & Ho).
  split; [exact Hi|]. split; [apply timer_lastTap|]. split; [exact Ho|].
  split; [apply Grows_step|]. split; [|exact Hnp].
  cbn [step]. destruct (timers s !! k) as [[due f]|]; auto.
  destruct (due <=? now); auto.
  destruct f as [|seq i base]; cbn [runTask].
  - right. by rewrite nextRound_sequence.
  - left. by rewrite presentLoop_sequence.
Qed.

Lemma lastTap_step (now : Z) (e : Event) (s : State) :
  lastTap s <= lastTap (step now e s).
Proof.
  revert now e s.
  apply (step_preorder (fun s s' => lastTap s <= lastTap s')); try (cbn; lia).
  - intros now c s.
    destruct (press_outcomes now c s)
      as [[_ ->] | [Hd [[_ ->] | [(_ & _ & _ & ->) | [(_ & _ & _ & ->)
                                  | (_ & _ & ->)]]]]]; cbn; lia.
  - intros now next s. rewrite nextRound_lastTap. lia.
  - intros now seq i base s.
    destruct (presentLoop_frame now seq i base s)
      as (_ & _ & _ & _ & _ & _ & _ & -> & _). lia.
Qed.

(** X9. The debounce timestamp never decreases in a session, whatever the
    clock does.  So a press whose clock reading is below the timestamp of an
    earlier accepted press plus 100 is dropped, however many events lie in
    between: after the clock has been set back, presses are dropped until it
    has caught up. *)
Theorem debounce_timestamp_never_decreases
    (tr : list (Z * Event)) (s : State) (now : Z) (c : Pad) :
  lastTap s <= lastTap (run tr s) /\
  (now < lastTap s + 100 -> handlePlayerPress now c (run tr s) = run tr s).
Proof.
  assert (H : lastTap s <= lastTap (run tr s)).
  { revert s. induction tr as [|[t e] tr IH]; intros s; cbn [run]; [lia|].
    pose proof (lastTap_step t e s). pose proof (IH (step t e s)). lia. }
  split; [exact H|]. intros Hn. apply press_dropped. lia.
Qed.

Lemma debounce_timestamp_never_decreases_witness :
  let s := run session_round_complete (init None) in
  lastTap s = 2000 /\
  handlePlayerPress 1500 green (run [(2450, TimerFires 0 red)] s)
  = run [(2450, TimerFires 0 red)] s.
Proof.
  intros s.
  destruct (debounce_timestamp_never_decreases
              [(2450, TimerFires 0 red)] s 1500 green) as (_ & H).
  split; [reflexivity | apply H; by vm_compute].
Defined.

(** ** Timers are never cancelled *)



(** ** The game-over overlay *)




(** ** Duration of a presentation *)

Lemma totalDelay_bounds (base : Z) (n : nat) :
  forall i : nat,
    140 * Z.of_nat n <= totalDelay base i n <= Z.max base 140 * Z.of_nat n.
Proof.
  induction n as [|n IH]; intros i; cbn [totalDelay]; [lia|].
  specialize (IH (S i)). unfold awaitDelay. lia.
Qed.

(** With timers that run when they are due, a presentation suspended at step
    [i] ends after the remaining delays. *)
Lemma watch_presentation_time (n : nat) :
  forall (clock : Z) (s : State) (d : Z) (i : nat) (base : Z),
    timers s = [(d, TPresent (seqRef s) i base)] -> clock <= d ->
    length (sequence s) = (i + S n)%nat ->
    watch (S n) (clock, s)
    = (d + totalDelay base (S i) n,
       set_isPlayingSequence false (set_timers [] s)).
Proof.
  induction n as [|n IH]; intros clock s d i base Ht Hc Hl.
  - cbn [watch totalDelay].
    rewrite (fireHead_timer _ _ _ _ _ _ Ht). cbn [runTask].
    unfold presentLoop. cbn [arrays set_timers]. fold (sequence s).
    rewrite bool_decide_eq_false_2 by lia.
    by rewrite Z.max_r, Z.add_0_r by lia.
  - change (watch (S (S n)) (clock, s))
      with (watch (S n) (fireHead green (clock, s))).
    rewrite (fireHead_timer _ _ _ _ _ _ Ht). cbn [runTask].
    unfold presentLoop. cbn [arrays set_timers]. fold (sequence s).
    rewrite bool_decide_eq_true_2 by lia.
    rewrite Z.max_r by lia.
    set (s2 := setTimeout d (awaitDelay base (S i))
                 (TPresent (seqRef s) (S i) base) (set_timers [] s)).
    rewrite (IH d s2 (d + awaitDelay base (S i)) (S i) base);
      [|done|unfold awaitDelay; lia|change (sequence s2) with (sequence s); lia].
    cbn [totalDelay]. f_equal. lia.
Qed.

(** X12. A presentation started by a round advance, with no other timer
    pending, always ends: after as many timer steps as the sequence has pads
    the flag is cleared and nothing else has changed.  With timers that run
    when due it takes the sum of the step delays, between 140 ms and 492 ms
    per pad. *)
Theorem presentation_runs_to_completion (t : Z) (next : Pad) (s0 : State) :
  timers s0 = [] ->
  let s1 := nextRound t next s0 in
  let len := length (sequence s1) in
  len = S (length (sequence s0)) /\
  watch len (t, s1)
  = (t + presentationTime len, set_isPlayingSequence false (set_timers [] s1)) /\
  140 * Z.of_nat len <= presentationTime len <= 492 * Z.of_nat len /\
  AwaitingInput (snd (watch len (t, s1))).
Proof.
  intros Ht s1 len.
  assert (Hs1 : sequence s1 = sequence s0 ++ [next])
    by apply nextRound_sequence.
  assert (Hlen : len = S (length (sequence s0)))
    by (subst len; rewrite Hs1, length_app; cbn; lia).
  assert (E1 : s1 = nextRound t next s0) by done.
  rewrite nextRound_unfold in E1. cbv zeta in E1. rewrite <- Hlen in E1.
  assert (Ew : watch len (t, s1)
               = (t + presentationTime len,
                  set_isPlayingSequence false (set_timers [] s1))).
  { rewrite Hlen at 1.
    rewrite (watch_presentation_time (length (sequence s0)) t s1
               (t + awaitDelay (baseDelay len) 0) 0 (baseDelay len)).
    - unfold presentationTime. rewrite Hlen at 4. cbn [totalDelay].
      f_equal. lia.
    - rewrite E1 at 1. cbn. rewrite Ht. rewrite E1. reflexivity.
    - unfold awaitDelay. lia.
    - fold len. lia. }
  split; [exact Hlen|]. split; [exact Ew|]. split.
  - pose proof (totalDelay_bounds (baseDelay len) len 0) as Hb.
    unfold presentationTime. unfold baseDelay in *. lia.
  - rewrite Ew. cbn [snd]. split; [reflexivity|].
    change (sequence (set_isPlayingSequence false (set_timers [] s1)))
      with (sequence s1).
    rewrite Hs1. by destruct (sequence s0).
Qed.

Lemma presentation_runs_to_completion_witness :
  let s1 := nextRound 2450 red (set_timers [] (run session_round_complete (init None))) in
  fst (watch 2 (2450, s1)) = 2450 + presentationTime 2 /\
  presentationTime 2 = 960 /\
  AwaitingInput (snd (watch 2 (2450, s1))).
Proof.
  intros s1.
  destruct (presentation_runs_to_completion 2450 red
              (set_timers [] (run session_round_complete (init None))) eq_refl)
    as (_ & Ew & _ & Ha).
  fold s1 in Ew, Ha.
  change (length (sequence s1)) with 2%nat in Ew, Ha.
  split; [by rewrite Ew|]. split; [reflexivity | exact Ha].
Defined.


(** ** The first round *)

Lemma first_round_from_reset (t : Z) (c : Pad) (s : State) :
  sequence s = [] -> timers s = [] ->
  let s' := nextRound t c s in
  sequence s' = [c] /\ level s' = 1 /\ playerIndex s' = playerIndex s /\
  Presenting s' /\
  timers s' = [(t + 492, TPresent (seqRef s') 0 492)] /\
  highScore s' = Z.max (highScore s) 0.
Proof.
  intros Hs Ht. cbv zeta.
  destruct (nextRound_frame t c s) as (Hi & _ & _ & Hr & _ & Hp).
  destruct (nextRound_highScore t c s) as [Hh _].
  rewrite nextRound_sequence, nextRound_level, Hh, Hs, Hr.
  split; [done|]. split; [done|]. split; [done|]. split; [done|].
  split; [|done].
  rewrite nextRound_unfold. cbn. by rewrite Ht, Hs.
Qed.

(** X14. From a state without pending timers, start or retry followed by the
    round advance, 350 ms later or more, gives the first round: one drawn
    pad, level 1, [playerIndex] 0, and its presentation is running with a
    step delay of 492 ms. *)
Theorem start_gives_first_round
    (s : State) (t1 t2 : Z) (c : Pad) (e : Event) :
  timers s = [] -> t1 + 350 <= t2 ->
  e = StartClick \/ e = RetryClick ->
  let s' := run [(t1, e); (t2, TimerFires 0 c)] s in
  sequence s' = [c] /\ level s' = 1 /\ playerIndex s' = 0%nat /\
  Presenting s' /\
  timers s' = [(t2 + 492, TPresent (seqRef s') 0 492)] /\
  highScore s' = Z.max (highScore s) 0.
Proof.
  intros Ht Hd He s'.
  assert (E : s' = nextRound t2 c
                     (set_timers [] (startGame t1 (hideGameOverOverlay s)))
              \/ s' = nextRound t2 c (set_timers [] (startGame t1 s))).
  { subst s'. destruct He as [-> | ->]; [right | left];
      cbn [run step onRetryClick].
    all: match goal with |- context [timers ?x !! 0%nat] =>
           assert (Hx : timers x = [(t1 + 350, TNextRound)])
             by (cbn; by rewrite Ht) end.
    all: rewrite Hx; cbn [lookup list_lookup delete list_delete].
    all: by destruct (Z.leb_spec (t1 + 350) t2); [|lia]. }
  clearbody s'.
  destruct E as [-> | ->].
  - apply (first_round_from_reset t2 c
             (set_timers [] (startGame t1 (hideGameOverOverlay s))));
      [apply (startGame_sequence t1 (hideGameOverOverlay s)) | done].
  - apply (first_round_from_reset t2 c (set_timers [] (startGame t1 s)));
      [apply (startGame_sequence t1 s) | done].
Qed.

Lemma start_gives_first_round_witness :
  let s' := run [(1000, RetryClick); (1400, TimerFires 0 blue)] (init (Some 3)) in
  sequence s' = [blue] /\ level s' = 1 /\ Presenting s'.
Proof.
  intros s'.
  assert (Hd : 1000 + 350 <= 1400) by lia.
  destruct (start_gives_first_round (init (Some 3)) 1000 1400 blue RetryClick
              eq_refl Hd (or_intror eq_refl)) as (Hs & Hl & _ & Hp & _).
  split; [exact Hs|]. split; [exact Hl | exact Hp].
Defined.

(** ** High score of a faultless game *)

(** A round of the faultless player, in one piece. *)
Lemma playRound_unfold (gap : Z) (seq : list Pad) (next : Pad)
    (clock due : Z) (s : State) :
  100 <= gap -> sequence s = seq -> playerIndex s = 0%nat ->
  timers s = [(due, TNextRound)] -> lastTap s <= clock ->
  exists clock',
    playRound gap (clock, s) next
    = (clock', setTimeout clock' 450 TNextRound
                 (set_playerIndex 0 (set_lastTap clock'
                    (set_isPlayingSequence false (set_timers []
                       (nextRound (Z.max clock due) next (set_timers [] s))))))).
Proof.
  intros Hg Hs Hi Ht Hl.
  unfold playRound. rewrite (fireHead_timer _ _ _ _ _ _ Ht). cbn [runTask].
  set (now := Z.max clock due).
  set (s1 := nextRound now next (set_timers [] s)).
  assert (Hs1 : sequence s1 = seq ++ [next])
    by (subst s1; rewrite nextRound_sequence; by rewrite <- Hs).
  assert (E1 : s1 = nextRound now next (set_timers [] s)) by done.
  rewrite nextRound_unfold in E1. cbv zeta in E1.
  cbn [snd]. rewrite Hs1.
  destruct (watch_presentation (length seq) now s1
              (now + awaitDelay (baseDelay (S (length (sequence s)))) 0)
              0 (baseDelay (S (length (sequence s)))))
    as (clock1 & Hc1 & Ew).
  { rewrite E1. cbn. done. }
  { rewrite Hs1, length_app. cbn. lia. }
  rewrite length_app, Nat.add_1_r. cbn [length]. rewrite Ew. cbn [snd].
  set (s2 := set_isPlayingSequence false (set_timers [] s1)).
  change (sequence s2) with (sequence s1). rewrite Hs1.
  destruct (replay_completes gap (seq ++ [next]) Hg ltac:(by destruct seq)
              [] clock1 s2) as (clock2 & Hc2 & Er).
  { done. }
  { subst s2. rewrite E1. cbn. done. }
  { done. }
  { subst s2. rewrite E1. cbn. lia. }
  exists clock2. exact Er.
Qed.

Lemma playRound_highScore (gap : Z) (seq : list Pad) (next : Pad)
    (cs : Z * State) :
  100 <= gap -> RoundComplete seq cs ->
  highScore (snd (playRound gap cs next))
  = Z.max (highScore (snd cs)) (Z.of_nat (length seq)) /\
  storage (snd (playRound gap cs next))
  = Some (Z.max (highScore (snd cs)) (Z.of_nat (length seq))).
Proof.
  intros Hg. destruct cs as [clock s].
  intros (Hs & _ & Hi & [due Ht] & Hl). cbn [fst snd] in *.
  destruct (playRound_unfold gap seq next clock due s Hg Hs Hi Ht Hl)
    as (clock' & ->).
  cbn [snd highScore storage setTimeout set_timers set_playerIndex set_lastTap
       set_isPlayingSequence].
  destruct (nextRound_highScore (Z.max clock due) next (set_timers [] s))
    as [Hh Hst].
  rewrite Hst, Hh. change (sequence (set_timers [] s)) with (sequence s).
  by rewrite Hs.
Qed.

Lemma playRounds_highScore (gap : Z) (draws : list Pad) :
  100 <= gap -> draws <> [] ->
  forall (seq : list Pad) (cs : Z * State),
    RoundComplete seq cs ->
    let final := snd (playRounds gap draws cs) in
    highScore final
    = Z.max (highScore (snd cs)) (Z.of_nat (length seq + length draws) - 1) /\
    storage final = Some (highScore final).
Proof.
  intros Hg. unfold playRounds.
  induction draws as [|c draws IH]; [done|]. intros _ seq cs Hrc.
  cbn [foldl]. cbv zeta.
  pose proof (playRound_RoundComplete gap seq c cs Hg Hrc) as Hrc1.
  destruct (playRound_highScore gap seq c cs Hg Hrc) as [Hh Hs].
  destruct draws as [|c' draws].
  - cbn [foldl length]. rewrite Hs, Hh. split; [f_equal; lia | done].
  - destruct (IH ltac:(done) (seq ++ [c]) (playRound gap cs c) Hrc1)
      as [Hh' Hs'].
    cbv zeta in Hh', Hs'. rewrite Hs', Hh', Hh, length_app. cbn [length].
    split; [lia | done].
Qed.

(** X15. A game played faultlessly for N >= 1 rounds from an idle state has,
    when round N is complete, the high score max(previous, N - 1), in memory
    and in storage: a completed round is credited only when the next round
    starts.  The round advance then credits round N. *)
Theorem faultless_play_high_score
    (gap t0 : Z) (s0 : State) (draws : list Pad) (next : Pad) :
  100 <= gap -> timers s0 = [] -> lastTap s0 <= t0 -> draws <> [] ->
  let final := playRounds gap draws (t0, startGame t0 s0) in
  highScore (snd final)
  = Z.max (highScore s0) (Z.of_nat (length draws) - 1) /\
  storage (snd final) = Some (highScore (snd final)) /\
  highScore (snd (fireHead next final))
  = Z.max (highScore s0) (Z.of_nat (length draws)).
Proof.
  intros Hg Ht Hl Hne final.
  pose proof (startGame_RoundComplete t0 s0 Ht Hl) as Hrc0.
  destruct (playRounds_highScore gap draws Hg Hne [] _ Hrc0) as [Hh Hs].
  cbv zeta in Hh, Hs. fold final in Hh, Hs. cbn [length Nat.add] in Hh.
  change (highScore (snd (t0, startGame t0 s0))) with (highScore s0) in Hh.
  split; [exact Hh|]. split; [exact Hs|].
  pose proof (playRounds_RoundComplete gap draws [] _ Hg Hrc0) as Hrc.
  fold final in Hrc. cbn [app] in Hrc.
  destruct final as [clock s]. destruct Hrc as (Hseq & _ & _ & [due Hd] & _).
  cbn [fst snd] in *.
  rewrite (fireHead_timer _ _ _ _ _ _ Hd). cbn [snd runTask].
  destruct (nextRound_highScore (Z.max clock due) next (set_timers [] s))
    as [-> _].
  change (sequence (set_timers [] s)) with (sequence s).
  change (highScore (set_timers [] s)) with (highScore s).
  rewrite Hseq, Hh. lia.
Qed.

Lemma faultless_play_high_score_witness :
  let final := playRounds 150 [green; red; blue] (1000, startGame 1000 (init (Some 1))) in
  highScore (snd final) = 2 /\ highScore (snd (fireHead yellow final)) = 3.
Proof.
  intros final.
  assert (Hg : 100 <= 150) by lia.
  assert (Hl : lastTap (init (Some 1)) <= 1000) by (vm_compute; discriminate).
  assert (Hne : [green; red; blue] <> []) by done.
  destruct (faultless_play_high_score 150 1000 (init (Some 1))
              [green; red; blue] yellow Hg eq_refl Hl Hne) as (Hh & _ & Hn).
  split; [exact Hh | exact Hn].
Defined.

(** ** Keys that press *)

Lemma toLowerCase_single (key : string) (x : ascii) :
  toLowerCase key = String x EmptyString ->
  exists y, key = String y EmptyString /\ lowerAscii y = x.
Proof.
  destruct key as [|y [|z r]]; cbn; intros H; try discriminate H.
  injection H as H. by exists y.
Qed.

Lemma lowerAscii_pad_key (y : ascii) :
  (lowerAscii y = "a"%char -> y = "a"%char \/ y = "A"%char) /\
  (lowerAscii y = "s"%char -> y = "s"%char \/ y = "S"%char) /\
  (lowerAscii y = "d"%char -> y = "d"%char \/ y = "D"%char) /\
  (lowerAscii y = "f"%char -> y = "f"%char \/ y = "F"%char).
Proof.
  destruct y as [[] [] [] [] [] [] [] []];
    repeat split; intros H; vm_compute in H; try discriminate H; auto.
Qed.

Lemma lowerAscii_idem (y : ascii) : lowerAscii (lowerAscii y) = lowerAscii y.
Proof. destruct y as [[] [] [] [] [] [] [] []]; reflexivity. Qed.

Lemma toLowerCase_idem (k : string) : toLowerCase (toLowerCase k) = toLowerCase k.
Proof.
  induction k as [|y k IH]; [done|]. cbn. by rewrite lowerAscii_idem, IH.
Qed.

(** The own properties of [keyMap], by key. *)
Lemma keyMap_own (key : string) (c : Pad) :
  keyMap !! toLowerCase key = Some c <-> (key, c) ∈ padKeys.
Proof.
  split.
  - intros H. unfold keyMap in H.
    destruct (decide (toLowerCase key = "a")) as [E|N1].
    { rewrite E in H. vm_compute in H. injection H as <-.
      destruct (toLowerCase_single _ _ E) as (y & -> & Hy).
      apply lowerAscii_pad_key in Hy as [-> | ->]; unfold padKeys;
        rewrite !elem_of_cons; auto. }
    destruct (decide (toLowerCase key = "s")) as [E|N2].
    { rewrite E in H. vm_compute in H. injection H as <-.
      destruct (toLowerCase_single _ _ E) as (y & -> & Hy).
      apply lowerAscii_pad_key in Hy as [-> | ->]; unfold padKeys;
        rewrite !elem_of_cons; auto 10. }
    destruct (decide (toLowerCase key = "d")) as [E|N3].
    { rewrite E in H. vm_compute in H. injection H as <-.
      destruct (toLowerCase_single _ _ E) as (y & -> & Hy).
      apply lowerAscii_pad_key in Hy as [-> | ->]; unfold padKeys;
        rewrite !elem_of_cons; auto 10. }
    destruct (decide (toLowerCase key = "f")) as [E|N4].
    { rewrite E in H. vm_compute in H. injection H as <-.
      destruct (toLowerCase_single _ _ E) as (y & -> & Hy).
      apply lowerAscii_pad_key in Hy as [-> | ->]; unfold padKeys;
        rewrite !elem_of_cons; auto 10. }
    rewrite !lookup_insert_ne, lookup_singleton_ne in H by done. done.
  - unfold padKeys. rewrite !elem_of_cons, elem_of_nil.
    intros [E|[E|[E|[E|[E|[E|[E|[E|[]]]]]]]]]; injection E as -> ->;
      by vm_compute.
Qed.

(** Of the inherited properties only those written in lower case can be the
    lower-cased key. *)
Lemma inherited_lower (key : string) :
  inheritedKey (toLowerCase key) = true <->
  toLowerCase key = "constructor" \/ toLowerCase key = "__proto__".
Proof.
  split.
  - intros H. unfold inheritedKey in H.
    apply existsb_exists in H as (x & Hin & Hx).
    apply String.eqb_eq in Hx. pose proof (toLowerCase_idem key) as Hidem.
    rewrite Hx in Hidem |- *. cbn in Hin.
    repeat (destruct Hin as [<- | Hin];
            [first [by left | by right | by vm_compute in Hidem]|]).
    destruct Hin.
  - intros [-> | ->]; reflexivity.
Qed.

Lemma noPad_press_is_game_over (now : Z) (s : State) :
  AwaitingInput s -> 100 <= now - lastTap s ->
  handlePlayerPress_noPad now s = gameOver (set_lastTap now s).
Proof.
  intros [Hp Hs] Hd. unfold handlePlayerPress_noPad.
  destruct (Z.ltb_spec (now - lastTap s) 100) as [|_]; [lia|].
  cbn [isPlayingSequence set_lastTap]. rewrite Hp.
  change (sequence (set_lastTap now s)) with (sequence s).
  by destruct (sequence s).
Qed.

(** X16. The keys for which the [window] listener calls [handlePlayerPress]
    are, first, a, s, d and f in lower or upper case, which press green, red,
    yellow and blue; and second, the keys that in lower case read
    [constructor] or [__proto__]: these are properties that [keyMap] inherits
    from [Object.prototype], their value is no pad, and the press matches
    nothing, so that it ends the game when the controller awaits input.
    Every other key is no press. *)
Theorem keys_that_press (key : string) (c : Pad) (now : Z) (s : State) :
  (keyMap !! toLowerCase key = Some c <-> (key, c) ∈ padKeys) /\
  ((key, c) ∈ padKeys ->
   step now (WindowKeyDown key) s = handlePlayerPress now c s) /\
  (inheritedKey (toLowerCase key) = true <->
   toLowerCase key = "constructor" \/ toLowerCase key = "__proto__") /\
  (inheritedKey (toLowerCase key) = true ->
   step now (WindowKeyDown key) s = handlePlayerPress_noPad now s /\
   (AwaitingInput s -> 100 <= now - lastTap s ->
    step now (WindowKeyDown key) s = gameOver (set_lastTap now s))) /\
  (keyMap !! toLowerCase key = None ->
   inheritedKey (toLowerCase key) = false ->
   step now (WindowKeyDown key) s
   = if isActivationKey key && (level s =? 0) then startGame now s else s).
Proof.
  split; [apply keyMap_own|]. split; [|split; [apply inherited_lower|split]].
  - intros Hin. apply window_key_is_press. by apply keyMap_own.
  - intros Hi.
    assert (Hk : keyMap !! toLowerCase key = None)
      by (apply inherited_lower in Hi as [-> | ->]; reflexivity).
    assert (Ha : isActivationKey key = false).
    { destruct (isActivationKey key) eqn:Ha; [|done].
      by rewrite (activation_not_inherited _ Ha) in Hi. }
    assert (E : step now (WindowKeyDown key) s = handlePlayerPress_noPad now s).
    { cbn [step]. unfold onWindowKeydown, pressKey. by rewrite Hk, Hi, Ha. }
    split; [exact E|]. intros Haw Hd. rewrite E.
    by apply noPad_press_is_game_over.
  - intros Hk Hi. cbn [step]. unfold onWindowKeydown, pressKey.
    by rewrite Hk, Hi.
Qed.

Lemma keys_that_press_witness :
  let s := run session_first_round (init None) in
  step 2000 (WindowKeyDown "D") s = handlePlayerPress 2000 yellow s /\
  step 2000 (WindowKeyDown "Constructor") s = gameOver (set_lastTap 2000 s) /\
  step 2000 (WindowKeyDown "g") s = s.
Proof.
  intros s.
  destruct (keys_that_press "D" yellow 2000 s) as (_ & Hpad & _).
  destruct (keys_that_press "Constructor" green 2000 s) as (_ & _ & _ & Hinh & _).
  destruct (keys_that_press "g" green 2000 s) as (_ & _ & _ & _ & Hnone).
  split; [apply Hpad; unfold padKeys; rewrite !elem_of_cons; auto 10|].
  split.
  - apply (Hinh eq_refl);
      [split; [reflexivity | by vm_compute] | by vm_compute].
  - rewrite (Hnone eq_refl eq_refl). reflexivity.
Defined.

(** ** Answers of the file server *)

(** X17. Whatever the runtime does, the handler answers with 200, 404 or
    500: 200 exactly when the read succeeds, and then with the bytes read;
    404 exactly when it fails with [ENOENT]; 500 otherwise.  Only a 500
    answer has no content type; a content type is always one of the four of
    the table, and it is text/html on 404. *)
Theorem handler_answers
    (dirname : string) (join : string -> string -> string)
    (extname : string -> string) (readFile : string -> Server.ReadResult)
    (url : string) :
  let r := Server.handler dirname join extname readFile url in
  let read := readFile (Server.resolve dirname join url) in
  (Server.status r = 200 \/ Server.status r = 404 \/ Server.status r = 500) /\
  (Server.status r = 200 <-> exists data, read = Server.ReadOk data) /\
  (forall data, read = Server.ReadOk data -> Server.body r = data) /\
  (Server.status r = 404 <->
   exists err, read = Server.ReadErr err /\ Server.code err = "ENOENT") /\
  (Server.contentType r = None <-> Server.status r = 500) /\
  (Server.status r = 404 -> Server.contentType r = Some "text/html") /\
  (forall t, Server.contentType r = Some t ->
     t = "text/html" \/ t = "text/javascript" \/ t = "text/css" \/
     t = "text/plain").
Proof.
  cbv zeta. unfold Server.handler.
  destruct (readFile (Server.resolve dirname join url)) as [data|err]; cbn.
  - rewrite mimeTypes_lookup.
    repeat split; try done; try (intros; by eauto);
      try (by intros (? & ? & _)); try (by intros [? [? _]]).
    + by intros data' [= ->].
    + intros t [= <-]. repeat case_match; auto.
  - destruct (String.eqb_spec (Server.code err) "ENOENT") as [E|N]; cbn.
    + repeat split; try done; try (by intros [? ?]); try (intros; by eauto).
      intros t [= <-]. auto.
    + repeat split; try done; try (by intros [? ?]); auto.
      intros (e' & [= <-] & ?). done.
Qed.

Lemma handler_answers_witness :
  Server.status (Server.serve "/game.js") = 200 /\
  Server.body (Server.serve "/game.js") = "(() => {})();".
Proof.
  destruct (handler_answers "/app" Server.join_normalised Server.posix_extname
              Server.files "/game.js") as (_ & H200 & Hbody & _).
  split; [apply H200; by eexists | by apply Hbody].
Defined.

(** ** Between round completion and round advance *)

Lemma playRounds_not_presenting (gap : Z) (draws : list Pad) :
  100 <= gap -> draws <> [] ->
  forall (seq : list Pad) (cs : Z * State),
    RoundComplete seq cs ->
    isPlayingSequence (snd (playRounds gap draws cs)) = false.
Proof.
  intros Hg. unfold playRounds.
  induction draws as [|c draws IH]; [done|]. intros _ seq cs Hrc.
  cbn [foldl].
  pose proof (playRound_RoundComplete gap seq c cs Hg Hrc) as Hrc1.
  destruct draws as [|c' draws].
  - cbn [foldl]. destruct cs as [clock s].
    destruct Hrc as (Hs & _ & Hi & [due Ht] & Hl). cbn [fst snd] in *.
    by destruct (playRound_unfold gap seq c clock due s Hg Hs Hi Ht Hl)
      as (clock' & ->).
  - by apply (IH ltac:(done) (seq ++ [c])).
Qed.

(** X18. When a faultlessly played round is complete, the controller accepts
    presses until the round advance runs, 450 ms later.  A mismatch in that
    time is a game over at the level reached, and the round advance stays
    pending: when it runs, the game that is over goes on by itself with a
    sequence of one pad at level 1, its presentation running, under the
    overlay. *)
Theorem game_over_before_round_advance_resumes
    (gap t0 now t : Z) (s0 : State) (draws : list Pad) (c next : Pad) :
  100 <= gap -> timers s0 = [] -> lastTap s0 <= t0 -> draws <> [] ->
  let final := snd (playRounds gap draws (t0, startGame t0 s0)) in
  AwaitingInput final /\
  (100 <= now - lastTap final -> sequence final !! 0%nat <> Some c ->
   let over := handlePlayerPress now c final in
   GameOver (Z.of_nat (length draws)) over /\
   (exists due, timers over = [(due, TNextRound)] /\
      (due <= t ->
       let resumed := step t (TimerFires 0 next) over in
       sequence resumed = [next] /\ level resumed = 1 /\ Presenting resumed /\
       overlay resumed = Some (Z.of_nat (length draws))))).
Proof.
  intros Hg Ht Hl Hne final.
  pose proof (startGame_RoundComplete t0 s0 Ht Hl) as Hrc0.
  pose proof (playRounds_RoundComplete gap draws [] _ Hg Hrc0) as Hrc.
  pose proof (playRounds_not_presenting gap draws Hg Hne [] _ Hrc0) as Hp.
  fold final in Hp. cbn [app] in Hrc.
  destruct Hrc as (Hseq & Hlev & Hidx & [due Hd] & _). fold final in Hseq, Hlev, Hidx, Hd.
  clearbody final.
  assert (Ha : AwaitingInput final)
    by (split; [done | rewrite Hseq; done]).
  split; [exact Ha|]. intros Hdeb Hmiss over.
  assert (E : over = gameOver (set_lastTap now final)).
  { subst over. rewrite press_accepted by (done || apply Ha).
    rewrite Hidx. by rewrite bool_decide_eq_false_2. }
  clearbody over. rewrite E. clear E over.
  set (g := gameOver (set_lastTap now final)).
  assert (Hgo : GameOver (level final) g)
    by apply (gameOver_is_GameOver (set_lastTap now final)).
  assert (Hgt : timers g = timers final) by reflexivity.
  assert (Hgv : overlay g = Some (level final)) by apply Hgo.
  assert (Hgs : sequence g = []) by apply Hgo.
  clearbody g. rewrite Hlev in Hgo, Hgv. rewrite Hd in Hgt.
  split; [exact Hgo|].
  exists due. split; [exact Hgt|]. intros Hdue resumed.
  assert (Er : resumed = nextRound t next (set_timers [] g)).
  { subst resumed. cbn [step]. rewrite Hgt.
    cbn [lookup list_lookup delete list_delete].
    by destruct (Z.leb_spec due t); [|lia]. }
  clearbody resumed. rewrite Er. clear Er resumed.
  assert (Hg0 : sequence (set_timers [] g) = []) by exact Hgs.
  assert (Ht0 : timers (set_timers [] g) = []) by reflexivity.
  destruct (first_round_from_reset t next (set_timers [] g) Hg0 Ht0)
    as (Hs & Hv & _ & Hpr & _).
  split; [exact Hs|]. split; [exact Hv|]. split; [exact Hpr|].
  destruct (nextRound_frame t next (set_timers [] g)) as (_ & _ & -> & _).
  exact Hgv.
Qed.

Lemma game_over_before_round_advance_resumes_witness :
  let final := snd (playRounds 150 [green; red] (1000, startGame 1000 (init None))) in
  let over := handlePlayerPress (lastTap final + 200) blue final in
  AwaitingInput final /\ GameOver 2 over.
Proof.
  intros final over.
  assert (Hg : 100 <= 150) by lia.
  assert (Hl : lastTap (init None) <= 1000) by (vm_compute; discriminate).
  assert (Hne : [green; red] <> []) by done.
  destruct (game_over_before_round_advance_resumes 150 1000
              (lastTap final + 200) 0 (init None) [green; red] blue yellow
              Hg eq_refl Hl Hne) as (Ha & H).
  split; [exact Ha|].
  assert (Hd : 100 <= lastTap final + 200 - lastTap final) by lia.
  assert (Hm : sequence final !! 0%nat <> Some blue) by (by vm_compute).
  exact (proj1 (H Hd Hm)).
Defined.
